(** * MemTrackerLimiter: hierarchical memory accounting with limits

    A shallow embedding of [be/src/runtime/memory/mem_tracker_limiter.h]
    (class [MemTrackerLimiter]) and proofs about its consume, try_consume,
    check_limit and cache_consume_local operations.

    Conventions of the embedding:
    - a tracker object is named by its address ([ptr]); the fields that are
      fixed when the tracker is created ([_label], [_limit],
      [_all_ancestors], [_limited_ancestors]) live in a [MemTrackerLimiter]
      record, the two atomics ([_consumption], [_untracked_mem]) live in a
      store [Counters] that the operations thread through;
    - [int64_t] values are [Z] with the two's complement wrap-around written
      out ([wrap64]);
    - the semantics is the sequential one: one call runs at a time;
    - a [while (true)] loop takes a [fuel] bound on its iterations and
      answers [None] when the bound is used up. *)

From Stdlib Require Import ZArith List String Bool Lia.
Import ListNotations.
Local Open Scope Z_scope.

(** ** int64_t arithmetic *)

Module Int64.

Definition min_value : Z := - 2 ^ 63.
Definition max_value : Z := 2 ^ 63 - 1.
Definition modulus : Z := 2 ^ 64.

(** [in_range z]: [z] is the value of some [int64_t]. *)
Definition in_range (z : Z) : Prop := min_value <= z <= max_value.

(** Two's complement reduction of an integer to an [int64_t] value. *)
Definition wrap64 (z : Z) : Z := (z + 2 ^ 63) mod modulus - 2 ^ 63.

Definition add64 (a b : Z) : Z := wrap64 (a + b).
Definition neg64 (a : Z) : Z := wrap64 (- a).

(** [std::abs] on an [int64_t]: the negation of a negative value, which
    wraps, so that the value at [min_value] is [min_value] itself. *)
Definition abs64 (a : Z) : Z := if a <? 0 then neg64 a else a.

End Int64.
Export Int64.

(** ** Status *)

(** The two messages a [Status::MemoryLimitExceeded] carries in this
    subsystem: the one built by [check_sys_mem_info] and the one of a tracker
    whose limit cannot be met. *)
Inductive MemLimitMsg : Type :=
| ProcessMemoryUsed (vm_rss mem_limit failed_alloc_size : Z)
| ExceededTracker (failed_alloc_size : Z) (exceeded_tracker : string)
                  (limit current_used : Z).

Inductive Status : Type :=
| OK
| MemoryLimitExceeded (msg : MemLimitMsg).

Definition ok (st : Status) : bool :=
  match st with OK => true | MemoryLimitExceeded _ => false end.

(** ** Trackers and their counters *)

Definition ptr : Type := nat.

(** The fields of a tracker that are set by its constructor and only read by
    the operations below. *)
Record MemTrackerLimiter : Type := {
  _label : string;
  _limit : Z;
  (* this tracker limiter plus all of its ancestors *)
  _all_ancestors : list ptr;
  (* _all_ancestors with valid limits, except process tracker *)
  _limited_ancestors : list ptr
}.

(** The atomics of every tracker, by address. *)
Record Counters : Type := {
  _consumption : ptr -> Z;
  _untracked_mem : ptr -> Z
}.

Definition upd (f : ptr -> Z) (p : ptr) (v : Z) : ptr -> Z :=
  fun q => if Nat.eqb q p then v else f q.

(** Every atomic holds an [int64_t]. *)
Definition counters_ok (m : Counters) : Prop :=
  forall p, in_range (_consumption m p) /\ in_range (_untracked_mem m p).

(** *** ConsumptionCounter *)

(** Modelled from the spec: the counter class behind [_consumption] is
    declared in mem_tracker.h, which is missing; section 4.1 gives
    [current_value() -> int64]: atomic read. *)
Definition current_value (tracker : ptr) (m : Counters) : Z :=
  _consumption m tracker.

(** Modelled from the spec: the missing counter's [add(delta)], section 4.1:
    unconditional atomic add. *)
Definition add (tracker : ptr) (delta : Z) (m : Counters) : Counters :=
  {| _consumption :=
       upd (_consumption m) tracker (add64 (_consumption m tracker) delta);
     _untracked_mem := _untracked_mem m |}.

(** Modelled from the spec: the missing counter's [try_add(delta, ceiling)],
    section 4.1: adds [delta] only if the resulting value would stay below
    [ceiling] (the check is [current + delta < ceiling]); answers false
    without mutating otherwise.  [None] is the answer false. *)
Definition try_add (tracker : ptr) (delta ceiling : Z) (m : Counters)
  : option Counters :=
  if add64 (current_value tracker m) delta <? ceiling
  then Some (add tracker delta m)
  else None.

(** [for (auto& tracker : l) tracker->_consumption->add(delta);] *)
Definition add_each (l : list ptr) (delta : Z) (m : Counters) : Counters :=
  fold_left (fun m' tracker => add tracker delta m') l m.

Definition set_untracked_mem (tracker : ptr) (v : Z) (m : Counters) : Counters :=
  {| _consumption := _consumption m;
     _untracked_mem := upd (_untracked_mem m) tracker v |}.

(** ** The operations of MemTrackerLimiter *)

Section Limiter.

(** The tracker objects, by address. *)
Variable trackers : ptr -> MemTrackerLimiter.
(** [PerfCounters::get_vm_rss()] and [MemInfo::mem_limit()]. *)
Variables vm_rss mem_limit : Z.
(** [config::mem_tracker_consume_min_size_bytes]. *)
Variable mem_tracker_consume_min_size_bytes : Z.
(** [MemTrackerLimiter::try_gc_memory], defined outside the header: it may
    run reclaim callbacks, which change counters, and answers a status. *)
Variable try_gc_memory : ptr -> Z -> Counters -> Status * Counters.

Definition label (tracker : ptr) : string := _label (trackers tracker).
Definition limit (tracker : ptr) : Z := _limit (trackers tracker).

(** [bool has_limit() const { return _limit >= 0; }] (line 83). *)
Definition has_limit (tracker : ptr) : bool := limit tracker >=? 0.

(** [bool limit_exceeded() const { return _limit >= 0 && _limit < consumption(); }]
    (line 89).  Modelled from the spec: [consumption()] belongs to the base
    class in mem_tracker.h, which is missing; section 3 reads it as the
    current value of the consumption counter ([limit_exceeded] holds iff
    [limit >= 0 AND consumption > limit]). *)
Definition limit_exceeded (tracker : ptr) (m : Counters) : bool :=
  (limit tracker >=? 0) && (limit tracker <? current_value tracker m).

(** The loop of [any_limit_exceeded] over [_limited_ancestors] (lines
    93-98). *)
Fixpoint any_limit_exceeded_loop (limited : list ptr) (m : Counters) : bool :=
  match limited with
  | [] => false
  | tracker :: rest =>
      if limit_exceeded tracker m then true
      else any_limit_exceeded_loop rest m
  end.

(** [MemTrackerLimiter::any_limit_exceeded] (lines 92-99). *)
Definition any_limit_exceeded (self : ptr) (m : Counters) : bool :=
  any_limit_exceeded_loop (_limited_ancestors (trackers self)) m.

(** [MemTrackerLimiter::check_sys_mem_info] (lines 67-80); the log line it
    prints is left out. *)
Definition check_sys_mem_info (bytes : Z) : Status :=
  if add64 vm_rss bytes >=? mem_limit
  then MemoryLimitExceeded (ProcessMemoryUsed vm_rss mem_limit bytes)
  else OK.

(** [MemTrackerLimiter::consume] (lines 248-253). *)
Definition consume (self : ptr) (bytes : Z) (m : Counters) : Counters :=
  if bytes =? 0 then m
  else add_each (_all_ancestors (trackers self)) bytes m.

(** [void release(int64_t bytes) { consume(-bytes); }] (line 180). *)
Definition release (self : ptr) (bytes : Z) (m : Counters) : Counters :=
  consume self (neg64 bytes) m.

(** [MemTrackerLimiter::add_untracked_mem] (lines 255-261): the value
    returned and the counters after the call; the test is on [std::abs] of
    the [int64_t] accumulator ([abs64]); [exchange(0)] hands back the
    accumulator and leaves 0. *)
Definition add_untracked_mem (self : ptr) (bytes : Z) (m : Counters)
  : Z * Counters :=
  let m1 := set_untracked_mem self (add64 (_untracked_mem m self) bytes) m in
  if abs64 (_untracked_mem m1 self) >=? mem_tracker_consume_min_size_bytes
  then (_untracked_mem m1 self, set_untracked_mem self 0 m1)
  else (0, m1).

(** The loop of [cache_consume_local] over [_all_ancestors] (lines
    267-270); the value added is [bytes], as at line 269. *)
Fixpoint cache_consume_local_loop (ancestors : list ptr) (bytes : Z)
         (m : Counters) : Counters :=
  match ancestors with
  | [] => m
  | tracker :: rest =>
      if String.eqb (label tracker) "Process" then m
      else cache_consume_local_loop rest bytes (add tracker bytes m)
  end.

(** [MemTrackerLimiter::cache_consume_local] (lines 263-272). *)
Definition cache_consume_local (self : ptr) (bytes : Z) (m : Counters)
  : Counters :=
  if bytes =? 0 then m
  else
    let '(consume_bytes, m1) := add_untracked_mem self bytes m in
    if negb (consume_bytes =? 0)
    then cache_consume_local_loop (_all_ancestors (trackers self)) bytes m1
    else m1.

(** [MemTrackerLimiter::transfer_to] (lines 136-139). *)
Definition transfer_to (self : ptr) (size : Z) (dst : ptr) (m : Counters)
  : Counters :=
  cache_consume_local dst size (cache_consume_local self (neg64 size) m).

(** The [while (true)] loop of [try_consume] at one limited tracker (lines
    292-302, the rollback apart): [OK] is the [break], another status is the
    failure of [try_gc_memory]. *)
Fixpoint try_consume_retry (fuel : nat) (tracker : ptr) (bytes : Z)
         (m : Counters) : option (Status * Counters) :=
  match fuel with
  | O => None
  | S fuel' =>
      match try_add tracker bytes (limit tracker) m with
      | Some m' => Some (OK, m')
      | None =>
          let '(st, m') := try_gc_memory tracker bytes m in
          if ok st then try_consume_retry fuel' tracker bytes m'
          else Some (st, m')
      end
  end.

(** [for (int j = _all_ancestors.size() - 1; j > i; --j)
       _all_ancestors[j]->_consumption->add(-bytes);] (lines 297-299). *)
Definition rollback (self : ptr) (bytes : Z) (i : nat) (m : Counters)
  : Counters :=
  let ancestors := _all_ancestors (trackers self) in
  fold_left (fun m' j => add (nth j ancestors self) (neg64 bytes) m')
            (rev (seq (S i) (List.length ancestors - S i))) m.

(** The top-down walk of [try_consume] (lines 282-304), entered with
    [i = k - 1]; it is over, with OK, at [i = -1]. *)
Fixpoint try_consume_walk (fuel : nat) (self : ptr) (bytes : Z) (k : nat)
         (m : Counters) : option (Status * Counters) :=
  match k with
  | O => Some (OK, m)
  | S i =>
      let tracker := nth i (_all_ancestors (trackers self)) self in
      if (limit tracker <? 0) || String.eqb (label tracker) "Process"
      then try_consume_walk fuel self bytes i (add tracker bytes m)
      else
        match try_consume_retry fuel tracker bytes m with
        | None => None
        | Some (st, m') =>
            if ok st then try_consume_walk fuel self bytes i m'
            else Some (st, rollback self bytes i m')
        end
  end.

(** [MemTrackerLimiter::try_consume] (lines 274-308). *)
Definition try_consume (fuel : nat) (self : ptr) (bytes : Z) (m : Counters)
  : option (Status * Counters) :=
  if bytes <=? 0 then Some (OK, release self (neg64 bytes) m)
  else
    match check_sys_mem_info bytes with
    | OK =>
        try_consume_walk fuel self bytes
                         (List.length (_all_ancestors (trackers self))) m
    | st => Some (st, m)
    end.

(** The [while (true)] loop of [check_limit] at one limited tracker (lines
    319-322). *)
Fixpoint check_limit_retry (fuel : nat) (tracker : ptr) (bytes : Z)
         (m : Counters) : option (Status * Counters) :=
  match fuel with
  | O => None
  | S fuel' =>
      if add64 (current_value tracker m) bytes <? limit tracker
      then Some (OK, m)
      else
        let '(st, m') := try_gc_memory tracker bytes m in
        if ok st then check_limit_retry fuel' tracker bytes m'
        else Some (st, m')
  end.

(** The top-down walk of [check_limit] (lines 315-323), entered with
    [i = k - 1]. *)
Fixpoint check_limit_walk (fuel : nat) (self : ptr) (bytes : Z) (k : nat)
         (m : Counters) : option (Status * Counters) :=
  match k with
  | O => Some (OK, m)
  | S i =>
      let tracker := nth i (_limited_ancestors (trackers self)) self in
      match check_limit_retry fuel tracker bytes m with
      | None => None
      | Some (st, m') =>
          if ok st then check_limit_walk fuel self bytes i m'
          else Some (st, m')
      end
  end.

(** [MemTrackerLimiter::check_limit] (lines 310-325). *)
Definition check_limit (fuel : nat) (self : ptr) (bytes : Z) (m : Counters)
  : option (Status * Counters) :=
  if bytes <=? 0 then Some (OK, m)
  else
    match check_sys_mem_info bytes with
    | OK =>
        check_limit_walk fuel self bytes
                         (List.length (_limited_ancestors (trackers self))) m
    | st => Some (st, m)
    end.

End Limiter.

(** [void update_limit(int64_t limit) { DCHECK(has_limit()); _limit = limit; }]
    (lines 85-88): the tracker objects after the call on [self]; the
    [DCHECK] is a precondition of the caller and compiles to nothing in a
    release build. *)
Definition update_limit (trackers : ptr -> MemTrackerLimiter) (self : ptr)
           (new_limit : Z) : ptr -> MemTrackerLimiter :=
  fun p =>
    if Nat.eqb p self
    then {| _label := _label (trackers p);
            _limit := new_limit;
            _all_ancestors := _all_ancestors (trackers p);
            _limited_ancestors := _limited_ancestors (trackers p) |}
    else trackers p.

(** ** The GC protocol *)

(** [typedef std::function<void(int64_t bytes_to_free)> GcFunction;] a
    reclaim callback acts on the counters (it releases what it frees). *)
Definition GcFunction : Type := Z -> Counters -> Counters.

Section GcProtocol.

Variable trackers : ptr -> MemTrackerLimiter.
(** [_gc_functions] of every tracker, in the order [add_gc_function]
    registered them. *)
Variable gc_functions : ptr -> list GcFunction.

(** Modelled from the spec: the pass of [try_gc_memory], which is defined
    in the missing mem_tracker_limiter.cpp; section 4.5: invoke registered
    callbacks in order, each given a target number of bytes to try to free
    (section 4.3: the protocol is asked for [bytes]), until either the
    freed memory is deemed sufficient or all callbacks have been tried. *)
Fixpoint gc_pass (fs : list GcFunction) (tracker : ptr) (bytes : Z)
         (m : Counters) : Counters :=
  match fs with
  | [] => m
  | f :: rest =>
      let m' := f bytes m in
      if add64 (current_value tracker m') bytes <? limit trackers tracker
      then m'
      else gc_pass rest tracker bytes m'
  end.

(** Modelled from the spec: [try_gc_memory(bytes)] of the missing
    mem_tracker_limiter.cpp; section 4.5: after the pass it recomputes
    consumption against limit and returns success if the limit is no
    longer exceeded, a limit-exceeded error otherwise; section 7: the error
    carries the offending tracker's label, limit, consumption and the
    requested size.  The limit is exceeded for the request when
    [current_value() + bytes >= limit], the condition under which
    [check_limit] calls it. *)
Definition try_gc_memory (tracker : ptr) (bytes : Z) (m : Counters)
  : Status * Counters :=
  let m' := gc_pass (gc_functions tracker) tracker bytes m in
  if add64 (current_value tracker m') bytes <? limit trackers tracker
  then (OK, m')
  else (MemoryLimitExceeded
          (ExceededTracker bytes (label trackers tracker)
                           (limit trackers tracker)
                           (current_value tracker m')), m').

End GcProtocol.

(** ** Sequences of calls *)

Definition sum (l : list Z) : Z := fold_right Z.add 0 l.

(** The calls that revise or drive the counters without a gate. *)
Inductive Call : Type :=
| CacheConsumeLocal (self : ptr) (bytes : Z)
| Consume (self : ptr) (bytes : Z)
| Release (self : ptr) (bytes : Z).

Definition callee (c : Call) : ptr :=
  match c with
  | CacheConsumeLocal self _ | Consume self _ | Release self _ => self
  end.

(** The bytes that the direct calls of a sequence ask to add: [bytes] for a
    [consume], [-bytes] for a [release], nothing for a batched revision. *)
Definition direct_bytes (c : Call) : Z :=
  match c with
  | CacheConsumeLocal _ _ => 0
  | Consume _ bytes => bytes
  | Release _ bytes => - bytes
  end.

(** The trackers of a chain that a [cache_consume_local] reaches: those
    before the first one labelled "Process". *)
Fixpoint before_process (trackers : ptr -> MemTrackerLimiter)
         (ancestors : list ptr) : list ptr :=
  match ancestors with
  | [] => []
  | tracker :: rest =>
      if String.eqb (_label (trackers tracker)) "Process" then []
      else tracker :: before_process trackers rest
  end.

(** [n] calls of [try_gc_memory(bytes)] on [tracker], one after the other. *)
Definition gc_rounds (try_gc_memory : ptr -> Z -> Counters -> Status * Counters)
           (tracker : ptr) (bytes : Z) (n : nat) (m : Counters) : Counters :=
  Nat.iter n (fun x => snd (try_gc_memory tracker bytes x)) m.

(** One stop of a walk: [snd stop] rounds of GC on the tracker [fst stop]. *)
Definition gc_stop (try_gc_memory : ptr -> Z -> Counters -> Status * Counters)
           (bytes : Z) (m : Counters) (stop : ptr * nat) : Counters :=
  gc_rounds try_gc_memory (fst stop) bytes (snd stop) m.

(** The rounds of GC of a stop of [check_limit] are all gone through: each
    one is entered with [current_value() + bytes >= limit], and
    [try_gc_memory] answers OK to each. *)
Definition gc_rounds_entered (trackers : ptr -> MemTrackerLimiter)
           (try_gc_memory : ptr -> Z -> Counters -> Status * Counters)
           (bytes : Z) (m : Counters) (stop : ptr * nat) : Prop :=
  forall r, (r < snd stop)%nat ->
    _limit (trackers (fst stop))
    <= add64 (current_value (fst stop)
                (gc_rounds try_gc_memory (fst stop) bytes r m)) bytes /\
    ok (fst (try_gc_memory (fst stop) bytes
               (gc_rounds try_gc_memory (fst stop) bytes r m))) = true.

(** A stop of [check_limit] that ends with room: after its rounds of GC,
    [current_value() + bytes < limit]. *)
Definition checked_stop (trackers : ptr -> MemTrackerLimiter)
           (try_gc_memory : ptr -> Z -> Counters -> Status * Counters)
           (bytes : Z) (m : Counters) (stop : ptr * nat) : Prop :=
  gc_rounds_entered trackers try_gc_memory bytes m stop /\
  add64 (current_value (fst stop) (gc_stop try_gc_memory bytes m stop)) bytes
  < _limit (trackers (fst stop)).

(** A stop of [check_limit] that ends with a failure: after its rounds of
    GC there is still no room, and one more [try_gc_memory] answers the
    status [st], which is not OK, and the counters [m']. *)
Definition refused_stop (trackers : ptr -> MemTrackerLimiter)
           (try_gc_memory : ptr -> Z -> Counters -> Status * Counters)
           (bytes : Z) (m : Counters) (stop : ptr * nat)
           (st : Status) (m' : Counters) : Prop :=
  gc_rounds_entered trackers try_gc_memory bytes m stop /\
  _limit (trackers (fst stop))
  <= add64 (current_value (fst stop) (gc_stop try_gc_memory bytes m stop))
           bytes /\
  try_gc_memory (fst stop) bytes (gc_stop try_gc_memory bytes m stop)
  = (st, m') /\
  ok st = false.

(** Stops that end with room, one after the other from the counters [m]. *)
Fixpoint checked_stops (trackers : ptr -> MemTrackerLimiter)
         (try_gc_memory : ptr -> Z -> Counters -> Status * Counters)
         (bytes : Z) (stops : list (ptr * nat)) (m : Counters) : Prop :=
  match stops with
  | [] => True
  | stop :: rest =>
      checked_stop trackers try_gc_memory bytes m stop /\
      checked_stops trackers try_gc_memory bytes rest
                    (gc_stop try_gc_memory bytes m stop)
  end.

(** One stop of a walk that adds: the rounds of GC, then [add(bytes)]. *)
Definition gc_stop_add
           (try_gc_memory : ptr -> Z -> Counters -> Status * Counters)
           (bytes : Z) (m : Counters) (stop : ptr * nat) : Counters :=
  add (fst stop) bytes (gc_stop try_gc_memory bytes m stop).

Section Sequences.

Variable trackers : ptr -> MemTrackerLimiter.
Variables vm_rss mem_limit : Z.
Variable mem_tracker_consume_min_size_bytes : Z.
Variable try_gc_memory : ptr -> Z -> Counters -> Status * Counters.

Definition run_call (c : Call) (m : Counters) : Counters :=
  match c with
  | CacheConsumeLocal self bytes =>
      cache_consume_local trackers mem_tracker_consume_min_size_bytes
                          self bytes m
  | Consume self bytes => consume trackers self bytes m
  | Release self bytes => release trackers self bytes m
  end.

Definition run_calls (cs : list Call) (m : Counters) : Counters :=
  fold_left (fun m' c => run_call c m') cs m.

(** [add_untracked_mem] called on [self] with each of [calls] in turn: the
    values returned and the counters at the end. *)
Fixpoint add_untracked_mem_seq (self : ptr) (calls : list Z) (m : Counters)
  : list Z * Counters :=
  match calls with
  | [] => ([], m)
  | bytes :: rest =>
      let '(r, m1) :=
        add_untracked_mem mem_tracker_consume_min_size_bytes self bytes m in
      let '(rs, m2) := add_untracked_mem_seq self rest m1 in
      (r :: rs, m2)
  end.

(** [try_consume] called on [self] with each of [calls] in turn: the
    statuses returned and the counters at the end. *)
Fixpoint try_consume_seq (fuel : nat) (self : ptr) (calls : list Z)
         (m : Counters) : option (list Status * Counters) :=
  match calls with
  | [] => Some ([], m)
  | bytes :: rest =>
      match try_consume trackers vm_rss mem_limit try_gc_memory
                        fuel self bytes m with
      | None => None
      | Some (st, m1) =>
          match try_consume_seq fuel self rest m1 with
          | None => None
          | Some (sts, m2) => Some (st :: sts, m2)
          end
      end
  end.

End Sequences.

(** Limit monotonicity in the words of the spec (section 8, property 3):
    repeated calls succeed until consumption would reach [L], then fail, and
    a failed call leaves the consumption where it was.  The answers
    ([true] for success) and the consumption at the end. *)
Fixpoint limit_monotonicity (L c : Z) (calls : list Z) : list bool * Z :=
  match calls with
  | [] => ([], c)
  | b :: rest =>
      if add64 c b <? L
      then let '(oks, c') := limit_monotonicity L (add64 c b) rest in
           (true :: oks, c')
      else let '(oks, c') := limit_monotonicity L c rest in
           (false :: oks, c')
  end.

(** A run of [try_consume] calls, seen from a tracker with ceiling [L] whose
    consumption goes from [c] to [c']: a call that succeeds keeps the
    consumption below [L] and adds its bytes, a call that fails leaves the
    consumption as it was. *)
Fixpoint respects_limit (L c : Z) (calls : list Z) (sts : list Status)
         (c' : Z) : Prop :=
  match calls, sts with
  | [], [] => c' = c
  | b :: calls', st :: sts' =>
      if ok st
      then add64 c b < L /\ respects_limit L (add64 c b) calls' sts' c'
      else respects_limit L c calls' sts' c'
  | _, _ => False
  end.

(** The accumulator of a tracker after the revisions [calls], from [acc]. *)
Definition running_total (acc : Z) (calls : list Z) : Z :=
  fold_left add64 calls acc.

(** The accumulator stays below the threshold in magnitude after each of the
    revisions [calls]. *)
Fixpoint stays_below (min_size acc : Z) (calls : list Z) : Prop :=
  match calls with
  | [] => True
  | bytes :: rest =>
      Z.abs (add64 acc bytes) < min_size /\
      stays_below min_size (add64 acc bytes) rest
  end.

(** ** The trees used as concrete inputs *)

Definition ROOT : ptr := 0%nat.
Definition QUERY : ptr := 1%nat.
Definition INSTANCE : ptr := 2%nat.

(** root (unlimited) -> query tracker (limit 1000) -> instance tracker
    (unlimited); section 8, property 6. *)
Definition scenario_trackers (p : ptr) : MemTrackerLimiter :=
  match p with
  | 0%nat => {| _label := "Process"; _limit := -1;
                _all_ancestors := [ROOT]; _limited_ancestors := [] |}
  | 1%nat => {| _label := "Query"; _limit := 1000;
                _all_ancestors := [QUERY; ROOT];
                _limited_ancestors := [QUERY] |}
  | _ => {| _label := "Instance"; _limit := -1;
            _all_ancestors := [INSTANCE; QUERY; ROOT];
            _limited_ancestors := [QUERY] |}
  end.

(** The same tree with a process tracker that holds a limit of 1000. *)
Definition limited_process_trackers (p : ptr) : MemTrackerLimiter :=
  match p with
  | 0%nat => {| _label := "Process"; _limit := 1000;
                _all_ancestors := [ROOT]; _limited_ancestors := [] |}
  | _ => scenario_trackers p
  end.

(** No tracker has a GC function. *)
Definition no_gc_functions : ptr -> list GcFunction := fun _ => [].

(** The query tracker has one GC function, which frees 450 bytes when
    invoked and releases them on the query tracker. *)
Definition scenario_gc_functions (p : ptr) : list GcFunction :=
  if Nat.eqb p QUERY
  then [fun _ m => release scenario_trackers QUERY 450 m]
  else [].

(** A GC protocol that always answers OK and frees nothing. *)
Definition gc_says_ok : ptr -> Z -> Counters -> Status * Counters :=
  fun _ _ m => (OK, m).

(** All counters at zero. *)
Definition zero_counters : Counters :=
  {| _consumption := fun _ => 0; _untracked_mem := fun _ => 0 |}.

(** [try_consume] in the scenario, with a SysMemGuard far from its ceiling:
    0 bytes resident, 2^40 allowed. *)
Definition scenario_try_consume
           (gc_functions : ptr -> list GcFunction) (fuel : nat)
           (self : ptr) (bytes : Z) (m : Counters)
  : option (Status * Counters) :=
  try_consume scenario_trackers 0 (2 ^ 40)
              (try_gc_memory scenario_trackers gc_functions)
              fuel self bytes m.

Definition counters_of (r : option (Status * Counters)) : Counters :=
  match r with
  | Some (_, m) => m
  | None => zero_counters
  end.

(** The counters after [try_consume(600)] on the instance tracker, from all
    counters at zero. *)
Definition scenario_after_600 : Counters :=
  counters_of
    (scenario_try_consume no_gc_functions 1 INSTANCE 600 zero_counters).

(** A flush threshold of 1 MB for [mem_tracker_consume_min_size_bytes]. *)
Definition one_megabyte : Z := 1048576.

(** * Proofs *)

(** Closes the branch [bytes <= 0] of an operation called with [0 < bytes]. *)
Ltac positive_request bytes :=
  let Hle := fresh "Hle" in
  destruct (bytes <=? 0) eqn:Hle; [apply Z.leb_le in Hle; lia|].

(** ** int64_t arithmetic *)

Section Int64Facts.

Lemma modulus_pos : 0 < modulus.
Proof. reflexivity. Qed.

Lemma wrap64_in_range z : in_range (wrap64 z).
Proof.
  unfold in_range, wrap64, min_value, max_value.
  pose proof (Z.mod_pos_bound (z + 2 ^ 63) modulus modulus_pos) as B.
  unfold modulus in *. lia.
Qed.

Lemma wrap64_id z : in_range z -> wrap64 z = z.
Proof.
  unfold in_range, wrap64, min_value, max_value, modulus. intros R.
  rewrite Z.mod_small; lia.
Qed.

Lemma wrap64_add_l a b : wrap64 (wrap64 a + b) = wrap64 (a + b).
Proof.
  unfold wrap64.
  replace ((a + 2 ^ 63) mod modulus - 2 ^ 63 + b + 2 ^ 63)
    with ((a + 2 ^ 63) mod modulus + b) by lia.
  rewrite Z.add_mod_idemp_l by (unfold modulus; lia).
  f_equal. f_equal. lia.
Qed.

Lemma wrap64_add_r a b : wrap64 (a + wrap64 b) = wrap64 (a + b).
Proof. rewrite Z.add_comm, wrap64_add_l. f_equal. lia. Qed.

Lemma add64_in_range a b : in_range (add64 a b).
Proof. apply wrap64_in_range. Qed.

(** Adding [bytes] and then [-bytes] gives the counter back. *)
Lemma add64_neg64_cancel c b :
  in_range c -> add64 (add64 c b) (neg64 b) = c.
Proof.
  intros R. unfold add64, neg64.
  rewrite wrap64_add_l, wrap64_add_r.
  replace (c + b + - b) with c by lia. now apply wrap64_id.
Qed.

(** Negating twice is the identity on [int64_t]. *)
Lemma neg64_involutive b : in_range b -> neg64 (neg64 b) = b.
Proof.
  intros R. unfold neg64, wrap64.
  replace (- ((- b + 2 ^ 63) mod modulus - 2 ^ 63) + 2 ^ 63)
    with (2 ^ 64 - (- b + 2 ^ 63) mod modulus) by lia.
  unfold in_range, min_value, max_value, modulus in *.
  destruct (Z.eq_dec b (- 2 ^ 63)) as [->|N].
  - reflexivity.
  - rewrite (Z.mod_small (- b + 2 ^ 63)) by lia.
    rewrite Z.mod_small; lia.
Qed.

Lemma iter_S_inner {A} (f : A -> A) n x :
  Nat.iter (S n) f x = Nat.iter n f (f x).
Proof. induction n as [|n IH]; [reflexivity|]. simpl in *. now rewrite IH. Qed.

Lemma iter_add64_in_range n d c :
  in_range c -> in_range (Nat.iter n (fun x => add64 x d) c).
Proof. intros R. destruct n; [exact R|apply add64_in_range]. Qed.

Lemma abs64_min_value : abs64 min_value = min_value.
Proof. reflexivity. Qed.

(** Away from [min_value], [abs64] is the magnitude. *)
Lemma abs64_abs a : in_range a -> a <> min_value -> abs64 a = Z.abs a.
Proof.
  intros R N. unfold abs64. destruct (a <? 0) eqn:S.
  - apply Z.ltb_lt in S. unfold neg64. rewrite wrap64_id.
    + lia.
    + unfold in_range, min_value, max_value in *. lia.
  - apply Z.ltb_ge in S. lia.
Qed.

Lemma abs64_le_abs a : in_range a -> abs64 a <= Z.abs a.
Proof.
  intros R. destruct (Z.eq_dec a min_value) as [->|N].
  - rewrite abs64_min_value. unfold min_value. lia.
  - rewrite abs64_abs by assumption. lia.
Qed.

(** [n] adds of [d] followed by [n] adds of [-d] cancel. *)
Lemma iter_add64_cancel n d c :
  in_range c ->
  Nat.iter n (fun x => add64 x (neg64 d)) (Nat.iter n (fun x => add64 x d) c)
  = c.
Proof.
  intros R. induction n as [|n IH]; [reflexivity|].
  rewrite (iter_S_inner (fun x => add64 x (neg64 d))).
  change (Nat.iter (S n) (fun x => add64 x d) c)
    with (add64 (Nat.iter n (fun x => add64 x d) c) d).
  rewrite add64_neg64_cancel by now apply iter_add64_in_range.
  exact IH.
Qed.

End Int64Facts.

(** ** The store of counters *)

Section StoreFacts.

Lemma upd_eq f p v : upd f p v p = v.
Proof. unfold upd. now rewrite Nat.eqb_refl. Qed.

Lemma upd_neq f p v q : q <> p -> upd f p v q = f q.
Proof. intros N. unfold upd. now apply Nat.eqb_neq in N as ->. Qed.

Lemma add_consumption_eq t d m :
  _consumption (add t d m) t = add64 (_consumption m t) d.
Proof. apply upd_eq. Qed.

Lemma add_consumption_neq t d m p :
  p <> t -> _consumption (add t d m) p = _consumption m p.
Proof. apply upd_neq. Qed.

Lemma add_counters_ok t d m : counters_ok m -> counters_ok (add t d m).
Proof.
  intros W p. destruct (W p) as [Wc Wu]. split; [|exact Wu].
  destruct (Nat.eq_dec p t) as [->|N].
  - rewrite add_consumption_eq. apply add64_in_range.
  - now rewrite add_consumption_neq.
Qed.

Lemma add_each_cons t l d m : add_each (t :: l) d m = add_each l d (add t d m).
Proof. reflexivity. Qed.

Lemma add_each_untracked_mem l d m :
  _untracked_mem (add_each l d m) = _untracked_mem m.
Proof.
  revert m. induction l as [|t l IH]; intros m; [reflexivity|].
  rewrite add_each_cons, IH. reflexivity.
Qed.

Lemma add_each_counters_ok l d m :
  counters_ok m -> counters_ok (add_each l d m).
Proof.
  revert m. induction l as [|t l IH]; intros m W; [exact W|].
  rewrite add_each_cons. apply IH. now apply add_counters_ok.
Qed.

(** A counter receives one add for each occurrence of its tracker. *)
Lemma add_each_consumption l d m p :
  _consumption (add_each l d m) p =
  Nat.iter (count_occ Nat.eq_dec l p) (fun c => add64 c d) (_consumption m p).
Proof.
  revert m. induction l as [|t l IH]; intros m; [reflexivity|].
  rewrite add_each_cons, IH. cbn [count_occ].
  destruct (Nat.eq_dec t p) as [->|N].
  - rewrite iter_S_inner. now rewrite add_consumption_eq.
  - rewrite add_consumption_neq by congruence. reflexivity.
Qed.

Lemma add_each_consumption_not_in l d m p :
  ~ In p l -> _consumption (add_each l d m) p = _consumption m p.
Proof.
  intros N. rewrite add_each_consumption.
  apply (count_occ_not_In Nat.eq_dec) in N. now rewrite N.
Qed.

Lemma add_each_consumption_once l d m p :
  NoDup l -> In p l ->
  _consumption (add_each l d m) p = add64 (_consumption m p) d.
Proof.
  intros D I. rewrite add_each_consumption.
  rewrite (proj1 (NoDup_count_occ' Nat.eq_dec l) D p I). reflexivity.
Qed.

(** Rolling back what was added restores every counter. *)
Lemma add_each_rollback l d m p :
  counters_ok m ->
  _consumption (add_each l (neg64 d) (add_each l d m)) p = _consumption m p.
Proof.
  intros W. rewrite !add_each_consumption.
  apply iter_add64_cancel, W.
Qed.

End StoreFacts.

(** ** Index loops and the lists they visit *)

Section IndexFacts.

Context {A : Type}.

(** The elements at the indices [k, k+1, ..., length l - 1]. *)
Lemma map_nth_seq_skipn (d : A) (l : list A) :
  forall k, map (fun j => nth j l d) (seq k (List.length l - k)) = skipn k l.
Proof.
  induction l as [|a l IH]; intros k.
  - destruct k; reflexivity.
  - destruct k as [|k].
    + cbn [List.length Nat.sub seq map nth skipn]. f_equal.
      rewrite <- seq_shift, map_map. cbn [nth].
      specialize (IH 0%nat). rewrite Nat.sub_0_r in IH. exact IH.
    + cbn [List.length Nat.sub skipn].
      rewrite <- seq_shift, map_map. cbn [nth]. apply IH.
Qed.

Lemma firstn_S_snoc (d : A) (l : list A) i :
  (i < List.length l)%nat -> firstn (S i) l = firstn i l ++ [nth i l d].
Proof.
  revert i. induction l as [|a l IH]; intros i Hi; [inversion Hi|].
  destruct i as [|i]; [reflexivity|].
  cbn [firstn nth app]. f_equal. apply IH. cbn in Hi. lia.
Qed.

Lemma nth_error_nth_lt (d : A) (l : list A) i :
  (i < List.length l)%nat -> nth_error l i = Some (nth i l d).
Proof. intros Hi. now apply nth_error_nth'. Qed.

End IndexFacts.

(** ** The walk of try_consume *)

Section WalkFacts.

Variable trackers : ptr -> MemTrackerLimiter.
Variable try_gc_memory : ptr -> Z -> Counters -> Status * Counters.

Local Abbreviation chain self := (_all_ancestors (trackers self)).
Local Abbreviation walk := (try_consume_walk trackers try_gc_memory).
Local Abbreviation retry := (try_consume_retry trackers try_gc_memory).
Local Abbreviation rounds := (gc_rounds try_gc_memory).

Lemma ok_true st : ok st = true -> st = OK.
Proof. destruct st; [reflexivity|discriminate]. Qed.

Lemma gc_rounds_S t b n m :
  rounds t b (S n) m = rounds t b n (snd (try_gc_memory t b m)).
Proof.
  unfold gc_rounds.
  exact (iter_S_inner (fun x => snd (try_gc_memory t b x)) n m).
Qed.

(** The rollback loop visits the trackers above index [i], root first. *)
Lemma rollback_add_each self bytes i m :
  rollback trackers self bytes i m =
  add_each (rev (skipn (S i) (chain self))) (neg64 bytes) m.
Proof.
  unfold rollback, add_each.
  rewrite <- (map_nth_seq_skipn self (chain self) (S i)), <- map_rev.
  generalize (rev (seq (S i) (List.length (chain self) - S i))) as js.
  intros js. revert m. induction js as [|j js IH]; intros m; [reflexivity|].
  cbn [map fold_left]. apply IH.
Qed.

(** A retry loop that breaks has added [bytes] after some rounds of GC. *)
Lemma retry_success fuel t b m m' :
  retry fuel t b m = Some (OK, m') ->
  exists n, add64 (current_value t (rounds t b n m)) b < limit trackers t /\
            m' = add t b (rounds t b n m).
Proof.
  revert m. induction fuel as [|fuel IH]; intros m E; [discriminate|].
  cbn [try_consume_retry] in E. unfold try_add in E.
  destruct (add64 (current_value t m) b <? limit trackers t) eqn:C.
  - exists 0%nat. apply Z.ltb_lt in C. inversion E. now split.
  - destruct (try_gc_memory t b m) as [st m1] eqn:G.
    destruct (ok st) eqn:K.
    + destruct (IH _ E) as (n & Hn & ->). exists (S n).
      rewrite gc_rounds_S, G. now split.
    + inversion E; subst. discriminate.
Qed.

(** A retry loop that fails hands back what [try_gc_memory] answered. *)
Lemma retry_failure fuel t b m st m' :
  retry fuel t b m = Some (st, m') -> ok st = false ->
  exists n, limit trackers t <= add64 (current_value t (rounds t b n m)) b /\
            try_gc_memory t b (rounds t b n m) = (st, m').
Proof.
  revert m. induction fuel as [|fuel IH]; intros m E K; [discriminate|].
  cbn [try_consume_retry] in E. unfold try_add in E.
  destruct (add64 (current_value t m) b <? limit trackers t) eqn:C.
  - inversion E; subst. discriminate.
  - destruct (try_gc_memory t b m) as [st1 m1] eqn:G.
    destruct (ok st1) eqn:K1.
    + destruct (IH _ E K) as (n & Hn & Hg). exists (S n).
      rewrite gc_rounds_S, G. now split.
    + inversion E; subst. exists 0%nat. apply Z.ltb_ge in C. now split.
Qed.

(** Without a ceiling in the way, one iteration adds. *)
Lemma retry_below fuel t b m :
  add64 (current_value t m) b < limit trackers t ->
  retry (S fuel) t b m = Some (OK, add t b m).
Proof.
  intros C. cbn [try_consume_retry]. unfold try_add.
  apply Z.ltb_lt in C. now rewrite C.
Qed.

Section FreesNothing.

Hypothesis frees_nothing : forall t b x, snd (try_gc_memory t b x) = x.

Lemma rounds_frees_nothing t b n m : rounds t b n m = m.
Proof.
  induction n as [|n IH]; [reflexivity|].
  now rewrite gc_rounds_S, frees_nothing.
Qed.

(** The failing walk: the tracker at some index [i] could not take the
    bytes, and the trackers above it were added to and rolled back. *)
Lemma walk_failure fuel self bytes k m st m' :
  (k <= List.length (chain self))%nat ->
  walk fuel self bytes k m = Some (st, m') -> ok st = false ->
  exists i, (i < k)%nat /\
    let tracker := nth i (chain self) self in
    let m_i := add_each (rev (skipn (S i) (firstn k (chain self)))) bytes m in
    0 <= limit trackers tracker /\
    label trackers tracker <> "Process"%string /\
    limit trackers tracker <= add64 (current_value tracker m_i) bytes /\
    st = fst (try_gc_memory tracker bytes m_i) /\
    m' = rollback trackers self bytes i m_i.
Proof.
  revert m. induction k as [|j IH]; intros m Hk E K.
  - inversion E; subst. discriminate.
  - cbn [try_consume_walk] in E.
    set (t := nth j (chain self) self) in *.
    assert (Hj : (j < List.length (chain self))%nat) by lia.
    assert (Hshift : forall i, (i < j)%nat ->
              add_each (rev (skipn (S i) (firstn (S j) (chain self)))) bytes m
              = add_each (rev (skipn (S i) (firstn j (chain self)))) bytes
                         (add t bytes m)).
    { intros i Hi. rewrite (firstn_S_snoc self) by exact Hj.
      rewrite skipn_app, length_firstn, Nat.min_l by lia.
      replace (S i - j)%nat with 0%nat by lia. cbn [skipn].
      rewrite rev_app_distr. reflexivity. }
    destruct ((limit trackers t <? 0) || String.eqb (label trackers t) "Process")
      eqn:X.
    + destruct (IH _ ltac:(lia) E K) as (i & Hi & H).
      exists i. split; [lia|]. cbn zeta in *. now rewrite Hshift.
    + apply orb_false_iff in X as [XL XP].
      apply Z.ltb_ge in XL. apply String.eqb_neq in XP.
      destruct (retry fuel t bytes m) as [[st1 m1]|] eqn:R; [|discriminate].
      destruct (ok st1) eqn:K1.
      * apply ok_true in K1; subst st1.
        destruct (retry_success _ _ _ _ _ R) as (n & _ & ->).
        rewrite rounds_frees_nothing in E.
        destruct (IH _ ltac:(lia) E K) as (i & Hi & H).
        exists i. split; [lia|]. cbn zeta in *. now rewrite Hshift.
      * inversion E; subst st m'; clear E.
        destruct (retry_failure _ _ _ _ _ _ R K1) as (n & Hn & Hg).
        rewrite rounds_frees_nothing in Hn, Hg.
        assert (m1 = m) as -> by (rewrite <- (frees_nothing t bytes m), Hg; reflexivity).
        exists j. split; [lia|]. cbn zeta. fold t.
        rewrite skipn_all2 by (rewrite length_firstn; lia).
        cbn [rev add_each fold_left].
        repeat split; try assumption. now rewrite Hg.
Qed.

End FreesNothing.

End WalkFacts.

(** ** Non-positive requests *)

(** C8.  For [bytes <= 0], [try_consume(bytes)] answers OK whatever the
    SysMemGuard reads, whatever the limits, the GC protocol and the bound on
    the loops: it is [release(-bytes)], which is [consume(bytes)]: nothing
    for [bytes = 0], otherwise [add(bytes)] on every tracker of
    [_all_ancestors], one add for each place of the tracker in the list.
    [consume] and [release] have no status to return: they are total
    functions on the counters. *)
Theorem try_consume_nonpositive_releases :
  forall trackers vm_rss mem_limit try_gc_memory fuel self bytes m,
    in_range bytes -> bytes <= 0 ->
    try_consume trackers vm_rss mem_limit try_gc_memory fuel self bytes m
    = Some (OK, release trackers self (neg64 bytes) m) /\
    release trackers self (neg64 bytes) m = consume trackers self bytes m /\
    consume trackers self bytes m
    = (if bytes =? 0 then m
       else add_each (_all_ancestors (trackers self)) bytes m) /\
    (bytes <> 0 ->
     forall p, current_value p (consume trackers self bytes m)
               = Nat.iter (count_occ Nat.eq_dec (_all_ancestors (trackers self)) p)
                          (fun c => add64 c bytes) (current_value p m)) /\
    (forall b, exists m1, consume trackers self b m = m1) /\
    (forall b, exists m1, release trackers self b m = m1).
Proof.
  intros trackers vm_rss mem_limit try_gc_memory fuel self bytes m R Hb.
  assert (E : release trackers self (neg64 bytes) m = consume trackers self bytes m).
  { unfold release. now rewrite neg64_involutive. }
  repeat split.
  - unfold try_consume. apply Z.leb_le in Hb. now rewrite Hb.
  - exact E.
  - intros N p. unfold consume. apply Z.eqb_neq in N. rewrite N.
    apply add_each_consumption.
  - intros b. now exists (consume trackers self b m).
  - intros b. now exists (release trackers self b m).
Qed.

(** C8 at a concrete input: [try_consume(-5)] on the instance tracker, with
    a SysMemGuard that rejects every request and no iteration allowed. *)
Lemma try_consume_nonpositive_releases_witness :
  (in_range (-5) /\ -5 <= 0) /\
  try_consume scenario_trackers 100 0
              (try_gc_memory scenario_trackers no_gc_functions)
              0 INSTANCE (-5) zero_counters
  = Some (OK, release scenario_trackers INSTANCE (neg64 (-5)) zero_counters) /\
  map (fun p => current_value p
                  (release scenario_trackers INSTANCE (neg64 (-5))
                           zero_counters))
      [ROOT; QUERY; INSTANCE]
  = [-5; -5; -5].
Proof.
  assert (R : in_range (-5)) by (unfold in_range, min_value, max_value; lia).
  split; [split; [exact R|lia]|]. split; [|reflexivity].
  apply (try_consume_nonpositive_releases scenario_trackers 100 0
           (try_gc_memory scenario_trackers no_gc_functions)
           0 INSTANCE (-5) zero_counters R).
  lia.
Defined.

(** ** The successful walk *)

Section WalkSuccess.

Variable trackers : ptr -> MemTrackerLimiter.
Variable try_gc_memory : ptr -> Z -> Counters -> Status * Counters.

Local Abbreviation chain self := (_all_ancestors (trackers self)).
Local Abbreviation walk := (try_consume_walk trackers try_gc_memory).
Local Abbreviation retry := (try_consume_retry trackers try_gc_memory).
Local Abbreviation rounds := (gc_rounds try_gc_memory).

Lemma map_fst_combine {A B} (l : list A) (l' : list B) :
  List.length l' = List.length l -> map fst (combine l l') = l.
Proof.
  revert l'. induction l as [|a l IH]; intros [|b l'] E; try discriminate.
  - reflexivity.
  - cbn [combine map fst]. f_equal. apply IH. now inversion E.
Qed.

(** The walk that succeeds stops at every tracker of the first [k] places
    of the chain, last place first, and adds [bytes] at each stop. *)
Lemma walk_success fuel self bytes k m m' :
  (k <= List.length (chain self))%nat ->
  walk fuel self bytes k m = Some (OK, m') ->
  exists passes,
    List.length passes = k /\
    m' = fold_left (gc_stop_add try_gc_memory bytes)
                   (combine (rev (firstn k (chain self))) passes) m.
Proof.
  revert m. induction k as [|j IH]; intros m Hk E.
  - inversion E; subst. now exists [].
  - cbn [try_consume_walk] in E.
    set (t := nth j (chain self) self) in *.
    rewrite (firstn_S_snoc self) by lia. fold t.
    rewrite rev_app_distr. cbn [rev app].
    destruct ((limit trackers t <? 0) || String.eqb (label trackers t) "Process").
    + destruct (IH _ ltac:(lia) E) as (ps & L & ->).
      exists (0%nat :: ps). split; [cbn; now rewrite L|reflexivity].
    + destruct (retry fuel t bytes m) as [[st1 m1]|] eqn:R; [|discriminate].
      destruct (ok st1) eqn:K1.
      * apply ok_true in K1; subst st1.
        destruct (retry_success _ _ _ _ _ _ _ R) as (n & _ & ->).
        destruct (IH _ ltac:(lia) E) as (ps & L & ->).
        exists (n :: ps). split; [cbn; now rewrite L|reflexivity].
      * inversion E; subst. discriminate.
Qed.

Section KeepsConsumption.

(** The GC protocol leaves every consumption counter as it is. *)
Hypothesis keeps_consumption :
  forall t b x p, _consumption (snd (try_gc_memory t b x)) p = _consumption x p.

Lemma rounds_consumption t b n m p :
  _consumption (rounds t b n m) p = _consumption m p.
Proof.
  revert m. induction n as [|n IH]; intros m; [reflexivity|].
  now rewrite gc_rounds_S, IH, keeps_consumption.
Qed.

Lemma stops_consumption bytes stops m p :
  _consumption (fold_left (gc_stop_add try_gc_memory bytes) stops m) p =
  Nat.iter (count_occ Nat.eq_dec (map fst stops) p)
           (fun c => add64 c bytes) (_consumption m p).
Proof.
  revert m. induction stops as [|[t n] stops IH]; intros m; [reflexivity|].
  cbn [fold_left map fst count_occ]. rewrite IH.
  unfold gc_stop_add, gc_stop. cbn [fst snd].
  destruct (Nat.eq_dec t p) as [->|N].
  - rewrite iter_S_inner, add_consumption_eq, rounds_consumption. reflexivity.
  - rewrite add_consumption_neq, rounds_consumption by congruence. reflexivity.
Qed.

(** After a successful walk over the whole chain every counter has received
    one add for each place of its tracker in the chain. *)
Lemma walk_success_consumption fuel self bytes m m' p :
  walk fuel self bytes (List.length (chain self)) m = Some (OK, m') ->
  _consumption m' p =
  Nat.iter (count_occ Nat.eq_dec (chain self) p)
           (fun c => add64 c bytes) (_consumption m p).
Proof.
  intros E. destruct (walk_success _ _ _ _ _ _ (le_n _) E) as (ps & L & ->).
  rewrite stops_consumption, firstn_all, map_fst_combine, count_occ_rev.
  - reflexivity.
  - now rewrite length_rev.
Qed.

(** A limited tracker met by a successful walk had room for the bytes. *)
Lemma walk_success_below fuel self bytes k m m' :
  NoDup (chain self) ->
  (k <= List.length (chain self))%nat ->
  walk fuel self bytes k m = Some (OK, m') ->
  forall i, (i < k)%nat ->
    let tracker := nth i (chain self) self in
    0 <= limit trackers tracker ->
    label trackers tracker <> "Process"%string ->
    add64 (current_value tracker m) bytes < limit trackers tracker.
Proof.
  intros D. revert m. induction k as [|j IH]; intros m Hk E i Hi; [lia|].
  cbn zeta. intros HL HP.
  cbn [try_consume_walk] in E.
  set (t := nth j (chain self) self) in *.
  assert (Hne : (i < j)%nat -> nth i (chain self) self <> t).
  { intros Hij Heq. apply (proj1 (NoDup_nth (chain self) self) D) in Heq; lia. }
  destruct ((limit trackers t <? 0) || String.eqb (label trackers t) "Process")
    eqn:X.
  - destruct (Nat.eq_dec i j) as [->|Nij].
    + fold t in HL, HP. apply orb_true_iff in X as [X|X].
      * apply Z.ltb_lt in X. lia.
      * apply String.eqb_eq in X. contradiction.
    + pose proof (IH _ ltac:(lia) E i ltac:(lia) HL HP) as B.
      unfold current_value in *.
      rewrite add_consumption_neq in B by (apply Hne; lia). exact B.
  - destruct (retry fuel t bytes m) as [[st1 m1]|] eqn:R; [|discriminate].
    destruct (ok st1) eqn:K1; [|inversion E; subst; discriminate].
    apply ok_true in K1; subst st1.
    destruct (retry_success _ _ _ _ _ _ _ R) as (n & Hn & ->).
    unfold current_value in *. rewrite rounds_consumption in Hn.
    destruct (Nat.eq_dec i j) as [->|Nij]; [exact Hn|].
    pose proof (IH _ ltac:(lia) E i ltac:(lia) HL HP) as B.
    rewrite add_consumption_neq, rounds_consumption in B by (apply Hne; lia).
    exact B.
Qed.

End KeepsConsumption.

(** When every limited tracker of the first [k] places has room for the
    bytes, the walk adds them everywhere and never asks for a GC. *)
Lemma walk_all_below fuel self bytes k m :
  NoDup (chain self) ->
  (k <= List.length (chain self))%nat ->
  (forall i, (i < k)%nat ->
     let tracker := nth i (chain self) self in
     0 <= limit trackers tracker ->
     label trackers tracker <> "Process"%string ->
     add64 (current_value tracker m) bytes < limit trackers tracker) ->
  walk (S fuel) self bytes k m
  = Some (OK, add_each (rev (firstn k (chain self))) bytes m).
Proof.
  intros D. revert m. induction k as [|j IH]; intros m Hk B; [reflexivity|].
  cbn [try_consume_walk].
  set (t := nth j (chain self) self) in *.
  rewrite (firstn_S_snoc self) by lia. fold t.
  rewrite rev_app_distr. cbn [rev app]. rewrite add_each_cons.
  assert (Hne : forall i, (i < j)%nat -> nth i (chain self) self <> t).
  { intros i Hij Heq. apply (proj1 (NoDup_nth (chain self) self) D) in Heq; lia. }
  assert (Bnext : forall i, (i < j)%nat ->
            let tracker := nth i (chain self) self in
            0 <= limit trackers tracker ->
            label trackers tracker <> "Process"%string ->
            add64 (current_value tracker (add t bytes m)) bytes
            < limit trackers tracker).
  { intros i Hij tracker HL HP. unfold current_value.
    rewrite add_consumption_neq by (apply Hne; exact Hij).
    apply (B i); [lia|exact HL|exact HP]. }
  destruct ((limit trackers t <? 0) || String.eqb (label trackers t) "Process")
    eqn:X.
  - apply IH; [lia|exact Bnext].
  - apply orb_false_iff in X as [XL XP].
    apply Z.ltb_ge in XL. apply String.eqb_neq in XP.
    rewrite retry_below by (apply (B j); [lia|exact XL|exact XP]).
    cbn [ok]. apply IH; [lia|exact Bnext].
Qed.

End WalkSuccess.

(** ** The GC protocol when the callbacks free nothing *)

Section GcFacts.

Variable trackers : ptr -> MemTrackerLimiter.
Variable gc_functions : ptr -> list GcFunction.

Hypothesis callbacks_free_nothing :
  forall t f, In f (gc_functions t) -> forall b x, f b x = x.

Lemma gc_pass_frees_nothing fs t b x :
  (forall f, In f fs -> forall b' x', f b' x' = x') ->
  gc_pass trackers fs t b x = x.
Proof.
  induction fs as [|f fs IH]; intros H; [reflexivity|].
  cbn [gc_pass]. rewrite (H f (or_introl eq_refl)).
  rewrite IH by (intros g Hg; apply H; now right).
  now destruct (_ <? _).
Qed.

Lemma try_gc_memory_frees_nothing t b x :
  snd (try_gc_memory trackers gc_functions t b x) = x.
Proof.
  unfold try_gc_memory.
  rewrite gc_pass_frees_nothing by apply callbacks_free_nothing.
  now destruct (_ <? _).
Qed.

(** With nothing freed, the protocol fails exactly when the request does
    not fit, and names its tracker. *)
Lemma try_gc_memory_verdict t b x :
  limit trackers t <= add64 (current_value t x) b ->
  fst (try_gc_memory trackers gc_functions t b x)
  = MemoryLimitExceeded
      (ExceededTracker b (label trackers t) (limit trackers t)
                       (current_value t x)).
Proof.
  intros C. unfold try_gc_memory.
  rewrite gc_pass_frees_nothing by apply callbacks_free_nothing.
  apply Z.ltb_ge in C. now rewrite C.
Qed.

End GcFacts.

Lemma no_gc_functions_free_nothing :
  forall t f, In f (no_gc_functions t) -> forall b x, f b x = x.
Proof. intros t f []. Qed.

Lemma no_gc_keeps_consumption trackers :
  forall t b x p,
    _consumption (snd (try_gc_memory trackers no_gc_functions t b x)) p
    = _consumption x p.
Proof.
  intros t b x p.
  now rewrite (try_gc_memory_frees_nothing trackers no_gc_functions
                 no_gc_functions_free_nothing).
Qed.

(** ** try_consume: success *)

(** C2.  When [try_consume(bytes)], [bytes > 0], answers OK, the call has
    stopped at every tracker of [_all_ancestors], last place (the root)
    first, and at each stop it has added [bytes] to the counter of that
    tracker, once, after the rounds of GC that the stop needed; nothing else
    has touched the counters.  So when the GC protocol leaves the
    consumption counters alone, every counter has received one add of
    [bytes] for each place of its tracker in the chain: in a chain without
    repeats, the counter of every tracker of the chain is its value before
    the call plus [bytes], in [int64_t] arithmetic, and every other counter
    is as before. *)
Theorem try_consume_success_adds_bytes :
  forall trackers vm_rss mem_limit try_gc_memory fuel self bytes m m',
    0 < bytes ->
    try_consume trackers vm_rss mem_limit try_gc_memory fuel self bytes m
    = Some (OK, m') ->
    let chain := _all_ancestors (trackers self) in
    (exists passes,
        List.length passes = List.length chain /\
        m' = fold_left (gc_stop_add try_gc_memory bytes)
                       (combine (rev chain) passes) m) /\
    ((forall t b x p,
         _consumption (snd (try_gc_memory t b x)) p = _consumption x p) ->
     (forall p, current_value p m'
                = Nat.iter (count_occ Nat.eq_dec chain p)
                           (fun c => add64 c bytes) (current_value p m)) /\
     (NoDup chain ->
      forall p, (In p chain ->
                 current_value p m' = add64 (current_value p m) bytes) /\
                (~ In p chain -> current_value p m' = current_value p m))).
Proof.
  intros trackers vm_rss mem_limit try_gc_memory fuel self bytes m m' Hb E chain.
  unfold try_consume in E.
  positive_request bytes.
  destruct (check_sys_mem_info vm_rss mem_limit bytes); [|discriminate].
  split.
  - destruct (walk_success _ _ _ _ _ _ _ _ (le_n _) E) as (ps & L & ->).
    exists ps. subst chain. now rewrite firstn_all in *.
  - intros K.
    assert (C : forall p, current_value p m'
                = Nat.iter (count_occ Nat.eq_dec chain p)
                           (fun c => add64 c bytes) (current_value p m)).
    { intros p. apply (walk_success_consumption _ _ K _ _ _ _ _ _ E). }
    split; [exact C|].
    intros D p. split; intros I; rewrite C.
    + now rewrite (proj1 (NoDup_count_occ' Nat.eq_dec chain) D p I).
    + apply (count_occ_not_In Nat.eq_dec) in I. now rewrite I.
Qed.

(** C2 at a concrete input: [try_consume(600)] on the instance tracker of
    root -> query (limit 1000) -> instance. *)
Lemma try_consume_success_adds_bytes_witness :
  0 < 600 /\
  scenario_try_consume no_gc_functions 1 INSTANCE 600 zero_counters
  = Some (OK, scenario_after_600) /\
  (forall p, In p [INSTANCE; QUERY; ROOT] ->
             current_value p scenario_after_600 = 600).
Proof.
  split; [lia|]. split; [reflexivity|].
  intros p I.
  pose proof (try_consume_success_adds_bytes
                scenario_trackers 0 (2 ^ 40)
                (try_gc_memory scenario_trackers no_gc_functions)
                1 INSTANCE 600 zero_counters scenario_after_600
                ltac:(lia) eq_refl) as [_ H].
  destruct (H (no_gc_keeps_consumption scenario_trackers)) as [_ H'].
  assert (D : NoDup (_all_ancestors (scenario_trackers INSTANCE))).
  { repeat constructor; cbn; intuition discriminate. }
  apply (proj1 (H' D p)) in I. exact I.
Defined.

(** ** try_consume: failure *)

Section FailureFacts.

Variable trackers : ptr -> MemTrackerLimiter.
Variables vm_rss mem_limit : Z.
Variable try_gc_memory : ptr -> Z -> Counters -> Status * Counters.

Hypothesis frees_nothing : forall t b x, snd (try_gc_memory t b x) = x.

(** A failed walk over the whole chain leaves the counters as they were. *)
Lemma walk_failure_restores fuel self bytes m st m' :
  counters_ok m ->
  try_consume_walk trackers try_gc_memory fuel self bytes
                   (List.length (_all_ancestors (trackers self))) m
  = Some (st, m') ->
  ok st = false ->
  (forall p, _consumption m' p = _consumption m p) /\
  (forall p, _untracked_mem m' p = _untracked_mem m p).
Proof.
  intros W E K.
  destruct (walk_failure _ _ frees_nothing _ _ _ _ _ _ _ (le_n _) E K)
    as (i & _ & _ & _ & _ & _ & Hm).
  rewrite firstn_all, rollback_add_each in Hm. subst m'. split; intros p.
  - now apply add_each_rollback.
  - now rewrite !add_each_untracked_mem.
Qed.

(** The same for the whole of [try_consume]. *)
Lemma try_consume_failure_restores fuel self bytes m st m' :
  counters_ok m ->
  0 < bytes ->
  try_consume trackers vm_rss mem_limit try_gc_memory fuel self bytes m
  = Some (st, m') ->
  ok st = false ->
  (forall p, _consumption m' p = _consumption m p) /\
  (forall p, _untracked_mem m' p = _untracked_mem m p).
Proof.
  intros W Hb E K. unfold try_consume in E.
  positive_request bytes.
  destruct (check_sys_mem_info vm_rss mem_limit bytes).
  - now apply (walk_failure_restores _ _ _ _ _ _ W E K).
  - inversion E; subst. now split.
Qed.

End FailureFacts.

(** ** check_limit *)

Section CheckLimitFacts.

Variable trackers : ptr -> MemTrackerLimiter.
Variable try_gc_memory : ptr -> Z -> Counters -> Status * Counters.

Local Abbreviation limited self := (_limited_ancestors (trackers self)).
Local Abbreviation rounds := (gc_rounds try_gc_memory).
Local Abbreviation stop := (gc_stop try_gc_memory).
Local Abbreviation entered := (gc_rounds_entered trackers try_gc_memory).
Local Abbreviation checked := (checked_stop trackers try_gc_memory).
Local Abbreviation refused := (refused_stop trackers try_gc_memory).
Local Abbreviation retry := (check_limit_retry trackers try_gc_memory).
Local Abbreviation walk := (check_limit_walk trackers try_gc_memory).

(** One more round in front of the rounds of a stop. *)
Lemma gc_rounds_entered_S t b n m st m1 :
  limit trackers t <= add64 (current_value t m) b ->
  try_gc_memory t b m = (st, m1) ->
  ok st = true ->
  entered b m1 (t, n) -> entered b m (t, S n).
Proof.
  intros C G K H [|r] Hr; cbn [fst snd] in *.
  - change (rounds t b 0 m) with m.
    rewrite G. now split.
  - rewrite gc_rounds_S, G. cbn [snd]. apply (H r). cbn [snd]. lia.
Qed.

Lemma gc_rounds_entered_inv t b n m :
  entered b m (t, S n) ->
  limit trackers t <= add64 (current_value t m) b /\
  ok (fst (try_gc_memory t b m)) = true /\
  entered b (snd (try_gc_memory t b m)) (t, n).
Proof.
  intros H. destruct (H 0%nat ltac:(cbn; lia)) as [C K].
  split; [exact C|]. split; [exact K|].
  intros r Hr. cbn [fst snd] in *.
  specialize (H (S r) ltac:(cbn; lia)). cbn [fst snd] in H.
  now rewrite gc_rounds_S in H.
Qed.

(** The loop at one tracker: rounds of GC, each entered without room and
    answered OK, then either room for the bytes or the failure of one more
    [try_gc_memory]. *)
Lemma check_limit_retry_result fuel t b m st m' :
  retry fuel t b m = Some (st, m') ->
  exists n,
    (n < fuel)%nat /\
    ((st = OK /\ m' = rounds t b n m /\ checked b m (t, n)) \/
     refused b m (t, n) st m').
Proof.
  revert m. induction fuel as [|fuel IH]; intros m E; [discriminate|].
  cbn [check_limit_retry] in E.
  destruct (add64 (current_value t m) b <? limit trackers t) eqn:C.
  - inversion E; subst. exists 0%nat. split; [lia|].
    left. apply Z.ltb_lt in C. split; [reflexivity|]. split; [reflexivity|].
    split; [intros r Hr; cbn in Hr; lia|exact C].
  - apply Z.ltb_ge in C.
    destruct (try_gc_memory t b m) as [st1 m1] eqn:G.
    destruct (ok st1) eqn:K1.
    + destruct (IH _ E) as (n & Hn & H). exists (S n). split; [lia|].
      destruct H as [(-> & -> & He & Hroom)|(He & Hc & Hg & Hk)].
      * left. split; [reflexivity|]. split; [now rewrite gc_rounds_S, G|].
        split; [now apply (gc_rounds_entered_S _ _ _ _ _ _ C G K1)|].
        unfold gc_stop in *. cbn [fst snd] in *. now rewrite gc_rounds_S, G.
      * right. unfold refused_stop, gc_stop in *. cbn [fst snd] in *.
        rewrite gc_rounds_S, G. cbn [snd].
        split; [now apply (gc_rounds_entered_S _ _ _ _ _ _ C G K1)|].
        now repeat split.
    + inversion E; subst. exists 0%nat. split; [lia|].
      right. split; [intros r Hr; cbn in Hr; lia|]. now repeat split.
Qed.

(** Conversely, a stop that ends with room is what the loop does, given
    one iteration more than its rounds of GC. *)
Lemma check_limit_retry_checked fuel t b n m :
  checked b m (t, n) -> (n < fuel)%nat ->
  retry fuel t b m = Some (OK, rounds t b n m).
Proof.
  revert fuel m. induction n as [|n IH]; intros [|fuel] m [He Hroom] Hf;
    try lia; cbn [check_limit_retry]; unfold gc_stop in Hroom;
    cbn [fst snd] in Hroom;
    change (_limit (trackers t)) with (limit trackers t) in Hroom.
  - change (rounds t b 0 m) with m in *.
    apply Z.ltb_lt in Hroom. now rewrite Hroom.
  - destruct (gc_rounds_entered_inv _ _ _ _ He) as (C & K & He').
    apply Z.ltb_ge in C. rewrite C.
    rewrite gc_rounds_S in *.
    destruct (try_gc_memory t b m) as [st1 m1]. cbn [fst snd] in *.
    rewrite K. apply IH; [|lia]. now split.
Qed.

(** And a stop that ends with a failure answers that failure and the
    counters that [try_gc_memory] handed back with it. *)
Lemma check_limit_retry_refused fuel t b n m st m' :
  refused b m (t, n) st m' -> (n < fuel)%nat ->
  retry fuel t b m = Some (st, m').
Proof.
  revert fuel m. induction n as [|n IH];
    intros [|fuel] m (He & C & G & K) Hf;
    try lia; cbn [check_limit_retry]; unfold gc_stop in C, G;
    cbn [fst snd] in C, G;
    change (_limit (trackers t)) with (limit trackers t) in C.
  - change (rounds t b 0 m) with m in *.
    apply Z.ltb_ge in C. now rewrite C, G, K.
  - destruct (gc_rounds_entered_inv _ _ _ _ He) as (C0 & K0 & He').
    apply Z.ltb_ge in C0. rewrite C0.
    rewrite gc_rounds_S in *.
    destruct (try_gc_memory t b m) as [st1 m1]. cbn [fst snd] in *.
    rewrite K0. apply IH; [|lia]. unfold refused_stop, gc_stop. cbn [fst snd].
    split; [exact He'|]. split; [exact C|]. split; [exact G|exact K].
Qed.

Lemma check_limit_retry_room fuel t b m :
  add64 (current_value t m) b < limit trackers t ->
  retry (S fuel) t b m = Some (OK, m).
Proof.
  intros C. cbn [check_limit_retry]. apply Z.ltb_lt in C. now rewrite C.
Qed.

(** The stops at the places [k-1], ..., [j] of [_limited_ancestors]. *)
Lemma stops_snoc self i j (ps : list nat) n :
  (j <= i < List.length (limited self))%nat ->
  combine (rev (skipn j (firstn (S i) (limited self)))) (n :: ps)
  = (nth i (limited self) self, n)
      :: combine (rev (skipn j (firstn i (limited self)))) ps.
Proof.
  intros H. rewrite (firstn_S_snoc self) by lia.
  rewrite skipn_app, length_firstn, Nat.min_l by lia.
  replace (j - i)%nat with 0%nat by lia. cbn [skipn].
  rewrite rev_app_distr. reflexivity.
Qed.

(** The walk: stops that end with room at the places [k-1], ..., [j] of
    [_limited_ancestors]; then OK if [j = 0], or at place [j-1] a stop that
    ends with a failure. *)
Lemma check_limit_walk_result fuel self bytes k m st m' :
  (k <= List.length (limited self))%nat ->
  walk fuel self bytes k m = Some (st, m') ->
  exists j passes,
    (j <= k)%nat /\ List.length passes = (k - j)%nat /\
    Forall (fun n => (n < fuel)%nat) passes /\
    let stops := combine (rev (skipn j (firstn k (limited self)))) passes in
    let x := fold_left (stop bytes) stops m in
    checked_stops trackers try_gc_memory bytes stops m /\
    ((st = OK /\ j = 0%nat /\ m' = x) \/
     (exists i n,
        j = S i /\ (n < fuel)%nat /\
        refused bytes x (nth i (limited self) self, n) st m')).
Proof.
  revert m. induction k as [|i IH]; intros m Hk E.
  - inversion E; subst. exists 0%nat, []. split; [lia|]. split; [reflexivity|].
    split; [constructor|]. cbn. split; [exact I|]. left. now repeat split.
  - cbn [check_limit_walk] in E.
    set (t := nth i (limited self) self) in *.
    destruct (retry fuel t bytes m) as [[st1 m1]|] eqn:R; [|discriminate].
    destruct (check_limit_retry_result _ _ _ _ _ _ R) as (n & Hn & [H|H]).
    + destruct H as (-> & -> & Hc). cbn [ok] in E.
      destruct (IH _ ltac:(lia) E) as (j & ps & Hj & L & F & H).
      exists j, (n :: ps). split; [lia|]. split; [cbn [List.length]; lia|].
      split; [now constructor|].
      rewrite stops_snoc by lia. fold t.
      cbn [fold_left checked_stops].
      change (stop bytes m (t, n)) with (rounds t bytes n m).
      cbn zeta in H. destruct H as [Hs H]. split; [|exact H].
      split; [exact Hc|exact Hs].
    + pose proof H as (_ & _ & _ & K1). rewrite K1 in E.
      inversion E; subst st1 m1.
      exists (S i), []. split; [lia|]. split; [cbn [List.length]; lia|].
      split; [constructor|].
      rewrite skipn_all2 by (rewrite length_firstn; lia).
      cbn [rev combine fold_left checked_stops]. split; [exact I|].
      right. exists i, n. split; [reflexivity|]. split; [exact Hn|exact H].
Qed.

(** Conversely, stops that end with room, followed by nothing or by a stop
    that ends with a failure, are what the walk does, given one iteration
    more than the rounds of GC of every stop. *)
Lemma check_limit_walk_complete fuel self bytes k :
  forall j passes m,
    (j <= k <= List.length (limited self))%nat ->
    List.length passes = (k - j)%nat ->
    Forall (fun n => (n < fuel)%nat) passes ->
    let stops := combine (rev (skipn j (firstn k (limited self)))) passes in
    let x := fold_left (stop bytes) stops m in
    checked_stops trackers try_gc_memory bytes stops m ->
    (j = 0%nat -> walk fuel self bytes k m = Some (OK, x)) /\
    (forall i n st m',
        j = S i -> (n < fuel)%nat ->
        refused bytes x (nth i (limited self) self, n) st m' ->
        walk fuel self bytes k m = Some (st, m')).
Proof.
  induction k as [|i IH]; intros j passes m Hj L F; cbn zeta.
  - assert (j = 0%nat) as -> by lia.
    destruct passes; [|discriminate]. cbn. intros _.
    split; [reflexivity|]. intros i n st m' Hi. discriminate.
  - destruct (Nat.eq_dec j (S i)) as [->|N].
    + destruct passes; [|cbn [List.length] in L; lia].
      rewrite skipn_all2 by (rewrite length_firstn; lia).
      cbn [rev combine fold_left checked_stops]. intros _.
      split; [discriminate|].
      intros i' n st m' Hi Hn H. inversion Hi; subst i'.
      cbn [check_limit_walk].
      rewrite (check_limit_retry_refused _ _ _ _ _ _ _ H Hn).
      destruct H as (_ & _ & _ & K). now rewrite K.
    + destruct passes as [|n0 ps]; [cbn [List.length] in L; lia|].
      inversion F as [|? ? Hn0 Fps]; subst.
      rewrite stops_snoc by lia.
      set (t := nth i (limited self) self).
      cbn [fold_left checked_stops]. intros [Hc Hs].
      change (stop bytes m (t, n0)) with (rounds t bytes n0 m) in *.
      cbn [check_limit_walk]. fold t.
      rewrite (check_limit_retry_checked _ _ _ _ _ Hc Hn0). cbn [ok].
      apply (IH j ps (rounds t bytes n0 m)); [lia| |exact Fps|exact Hs].
      cbn [List.length] in L. lia.
Qed.

(** Rounds of GC that leave the consumption counters alone. *)
Lemma stops_keep_consumption bytes stops m p :
  (forall t b x q,
      _consumption (snd (try_gc_memory t b x)) q = _consumption x q) ->
  _consumption (fold_left (stop bytes) stops m) p = _consumption m p.
Proof.
  intros K. revert m. induction stops as [|[t n] stops IH]; intros m.
  - reflexivity.
  - cbn [fold_left]. rewrite IH. unfold gc_stop. cbn [fst snd].
    now apply rounds_consumption.
Qed.

(** With room at every tracker of the first [k] places, no GC is asked. *)
Lemma check_limit_walk_room fuel self bytes k m :
  (k <= List.length (limited self))%nat ->
  (forall t, In t (limited self) ->
             add64 (current_value t m) bytes < limit trackers t) ->
  walk (S fuel) self bytes k m = Some (OK, m).
Proof.
  intros Hk B. induction k as [|i IH]; [reflexivity|].
  cbn [check_limit_walk].
  rewrite check_limit_retry_room by (apply B, nth_In; lia).
  cbn [ok]. apply IH. lia.
Qed.

(** The first tracker without room, from the root end, is asked for one GC;
    a failure of that GC is the answer of the walk, and the trackers below
    are not looked at. *)
Lemma check_limit_walk_refused_at fuel self bytes i st m1 m :
  (forall k, (i < k < List.length (limited self))%nat ->
             add64 (current_value (nth k (limited self) self) m) bytes
             < limit trackers (nth k (limited self) self)) ->
  limit trackers (nth i (limited self) self)
  <= add64 (current_value (nth i (limited self) self) m) bytes ->
  try_gc_memory (nth i (limited self) self) bytes m = (st, m1) ->
  ok st = false ->
  forall k, (i < k <= List.length (limited self))%nat ->
            walk (S fuel) self bytes k m = Some (st, m1).
Proof.
  intros B C G K k. induction k as [|k' IH]; intros Hk; [lia|].
  cbn [check_limit_walk].
  destruct (Nat.eq_dec k' i) as [->|N].
  - cbn [check_limit_retry]. apply Z.ltb_ge in C. rewrite C, G.
    cbn beta iota zeta. rewrite K. cbn beta iota. now rewrite K.
  - rewrite check_limit_retry_room by (apply B; lia).
    cbn [ok]. apply IH. lia.
Qed.

End CheckLimitFacts.

Section CheckLimitRoom.

Variable trackers : ptr -> MemTrackerLimiter.
Variable try_gc_memory : ptr -> Z -> Counters -> Status * Counters.

Hypothesis keeps_consumption :
  forall t b x p, _consumption (snd (try_gc_memory t b x)) p = _consumption x p.

(** A walk that answers OK has found room at every tracker it met. *)
Lemma check_limit_walk_ok_room fuel self bytes k m m' :
  check_limit_walk trackers try_gc_memory fuel self bytes k m = Some (OK, m') ->
  forall i, (i < k)%nat ->
    let t := nth i (_limited_ancestors (trackers self)) self in
    add64 (current_value t m) bytes < limit trackers t.
Proof.
  revert m. induction k as [|j IH]; intros m E i Hi; [lia|].
  cbn [check_limit_walk] in E.
  destruct (check_limit_retry trackers try_gc_memory fuel
              (nth j (_limited_ancestors (trackers self)) self) bytes m)
    as [[st1 m1]|] eqn:R; [|discriminate].
  destruct (check_limit_retry_result _ _ _ _ _ _ _ _ R) as (n & _ & [H|H]).
  - destruct H as (-> & -> & _ & B). cbn [ok] in E.
    unfold gc_stop in B. cbn [fst snd] in B.
    unfold current_value in *.
    rewrite (rounds_consumption _ keeps_consumption) in B.
    destruct (Nat.eq_dec i j) as [->|N]; [exact B|].
    pose proof (IH _ E i ltac:(lia)) as B'. cbn zeta in B'.
    now rewrite (rounds_consumption _ keeps_consumption) in B'.
  - destruct H as (_ & _ & _ & K1). rewrite K1 in E. inversion E; subst.
    discriminate.
Qed.

(** Whatever a walk answers, the consumption counters are as before. *)
Lemma check_limit_walk_keeps fuel self bytes k m st m' p :
  (k <= List.length (_limited_ancestors (trackers self)))%nat ->
  check_limit_walk trackers try_gc_memory fuel self bytes k m = Some (st, m') ->
  _consumption m' p = _consumption m p.
Proof.
  intros Hk E.
  destruct (check_limit_walk_result _ _ _ _ _ _ _ _ _ Hk E)
    as (j & ps & _ & _ & _ & H).
  cbn zeta in H.
  destruct H as [_ [(_ & _ & ->)|(i & n & _ & _ & _ & _ & Hg & _)]].
  - now apply stops_keep_consumption.
  - apply (f_equal snd) in Hg. cbn [snd] in Hg.
    rewrite <- Hg, keeps_consumption.
    unfold gc_stop. cbn [fst snd].
    rewrite (rounds_consumption _ keeps_consumption).
    now apply stops_keep_consumption.
Qed.

End CheckLimitRoom.

(** C7.  [check_limit(bytes)], [bytes > 0], first asks [check_sys_mem_info]
    and answers its error, with the counters untouched, if it has one.
    Otherwise it stops at the trackers of [_limited_ancestors] only, from the
    last place (nearest the root) down.  At each stop it runs rounds of
    [try_gc_memory(bytes)], each one entered because
    [current_value() + bytes >= limit] and answered OK, until there is room.
    It answers OK after the stop at place 0, with counters that only those
    rounds have touched; or, at the first place where a [try_gc_memory]
    fails, the status and the counters of that call, with nothing run after
    it.  This is what every answer is, and every such run is answered, as
    soon as the loops are given one iteration more than the rounds of GC:
    in particular the first tracker without room, from the root end, is
    asked for a GC, and the failure of that GC is the answer at once.
    [check_limit] never adds to a counter itself: when the GC protocol
    leaves the consumption counters alone, so does [check_limit], whatever
    it answers; it then answers OK only if every limited ancestor has room
    for [bytes], and with room everywhere it answers OK without one call of
    [try_gc_memory]. *)
Theorem check_limit_never_mutates :
  forall trackers vm_rss mem_limit try_gc_memory self bytes m,
    0 < bytes ->
    let limited := _limited_ancestors (trackers self) in
    let check_limit_at fuel :=
      check_limit trackers vm_rss mem_limit try_gc_memory fuel self bytes m in
    let room x t := add64 (current_value t x) bytes < limit trackers t in
    (forall fuel st m',
        check_limit_at fuel = Some (st, m') ->
        (st = MemoryLimitExceeded (ProcessMemoryUsed vm_rss mem_limit bytes) /\
         check_sys_mem_info vm_rss mem_limit bytes = st /\ m' = m) \/
        (check_sys_mem_info vm_rss mem_limit bytes = OK /\
         exists j passes,
           (j <= List.length limited)%nat /\
           List.length passes = (List.length limited - j)%nat /\
           let stops := combine (rev (skipn j limited)) passes in
           let x := fold_left (gc_stop try_gc_memory bytes) stops m in
           checked_stops trackers try_gc_memory bytes stops m /\
           ((st = OK /\ j = 0%nat /\ m' = x) \/
            (exists i n,
               j = S i /\
               refused_stop trackers try_gc_memory bytes x
                            (nth i limited self, n) st m')))) /\
    (forall st fuel,
        check_sys_mem_info vm_rss mem_limit bytes = st -> ok st = false ->
        check_limit_at fuel = Some (st, m)) /\
    (check_sys_mem_info vm_rss mem_limit bytes = OK ->
     forall fuel j passes,
       (j <= List.length limited)%nat ->
       List.length passes = (List.length limited - j)%nat ->
       Forall (fun n => (n < fuel)%nat) passes ->
       let stops := combine (rev (skipn j limited)) passes in
       let x := fold_left (gc_stop try_gc_memory bytes) stops m in
       checked_stops trackers try_gc_memory bytes stops m ->
       (j = 0%nat -> check_limit_at fuel = Some (OK, x)) /\
       (forall i n st m',
           j = S i -> (n < fuel)%nat ->
           refused_stop trackers try_gc_memory bytes x
                        (nth i limited self, n) st m' ->
           check_limit_at fuel = Some (st, m'))) /\
    (check_sys_mem_info vm_rss mem_limit bytes = OK ->
     forall i st m1,
       (forall k, (i < k < List.length limited)%nat ->
                  room m (nth k limited self)) ->
       (i < List.length limited)%nat ->
       ~ room m (nth i limited self) ->
       try_gc_memory (nth i limited self) bytes m = (st, m1) ->
       ok st = false ->
       forall fuel, check_limit_at (S fuel) = Some (st, m1)) /\
    ((forall t b x p,
         _consumption (snd (try_gc_memory t b x)) p = _consumption x p) ->
     forall fuel st m',
       check_limit_at fuel = Some (st, m') ->
       (forall p, current_value p m' = current_value p m) /\
       (st = OK -> forall t, In t limited -> room m t)) /\
    (check_sys_mem_info vm_rss mem_limit bytes = OK ->
     (forall t, In t limited -> room m t) ->
     forall fuel, check_limit_at (S fuel) = Some (OK, m)).
Proof.
  intros trackers vm_rss mem_limit try_gc_memory self bytes m Hb
         limited check_limit_at room.
  subst check_limit_at room. cbn beta. unfold check_limit.
  positive_request bytes.
  split; [|split; [|split; [|split; [|split]]]].
  - intros fuel st m' E.
    destruct (check_sys_mem_info vm_rss mem_limit bytes) eqn:G.
    + right. split; [reflexivity|].
      destruct (check_limit_walk_result _ _ _ _ _ _ _ _ _ (le_n _) E)
        as (j & ps & Hj & L & _ & H).
      exists j, ps. rewrite firstn_all in H.
      split; [exact Hj|]. split; [exact L|].
      cbn zeta in *. destruct H as [Hs H]. split; [exact Hs|].
      destruct H as [H|(i & n & Hi & _ & H)]; [now left|].
      right. now exists i, n.
    + left. inversion E; subst. unfold check_sys_mem_info in G.
      destruct (add64 vm_rss bytes >=? mem_limit); [|discriminate].
      now inversion G.
  - intros st fuel G K. rewrite G. destruct st; [discriminate|reflexivity].
  - intros G fuel j passes Hj L F Hs. rewrite G.
    pose proof (check_limit_walk_complete trackers try_gc_memory fuel self
                  bytes (List.length limited) j passes m
                  (conj Hj (le_n _)) L F) as H.
    cbn zeta in H. rewrite firstn_all in H.
    destruct (H Hs) as [Hok Hfail].
    split; [exact Hok|]. intros i n st m' Hi Hn Hr.
    now apply (Hfail i n st m' Hi Hn).
  - intros G i st m1 B Hi C Gc K fuel. rewrite G.
    apply (check_limit_walk_refused_at trackers try_gc_memory fuel self bytes
             i st m1 m B); [|exact Gc|exact K|].
    + fold limited. lia.
    + split; [exact Hi|apply le_n].
  - intros Kc fuel st m' E.
    destruct (check_sys_mem_info vm_rss mem_limit bytes) eqn:G.
    + split.
      * intros p. unfold current_value.
        apply (check_limit_walk_keeps _ _ Kc _ _ _ _ _ _ _ _ (le_n _) E).
      * intros -> t I.
        destruct (In_nth _ _ self I) as (i & Hi & <-).
        apply (check_limit_walk_ok_room _ _ Kc _ _ _ _ _ _ E i Hi).
    + inversion E; subst. split; [reflexivity|discriminate].
  - intros G B fuel. rewrite G.
    now apply check_limit_walk_room.
Qed.

(** C7 at a concrete input.  After [try_consume(600)] on the instance
    tracker the query tracker (limit 1000) holds 600 and has no room for
    500.  With no GC function, [check_limit(500)] asks the query tracker for
    a GC, which fails, and answers that failure at once.  With the GC
    function that releases 450 on the query tracker, the GC is run once and
    the answer is OK; the counters are those the GC left. *)
Lemma check_limit_never_mutates_witness :
  (0 < 500 /\
   check_sys_mem_info 0 (2 ^ 40) 500 = OK /\
   ~ add64 (current_value QUERY scenario_after_600) 500
     < limit scenario_trackers QUERY /\
   try_gc_memory scenario_trackers no_gc_functions QUERY 500 scenario_after_600
   = (MemoryLimitExceeded (ExceededTracker 500 "Query" 1000 600),
      scenario_after_600) /\
   checked_stops scenario_trackers
                 (try_gc_memory scenario_trackers scenario_gc_functions)
                 500 [(QUERY, 1%nat)] scenario_after_600) /\
  check_limit scenario_trackers 0 (2 ^ 40)
              (try_gc_memory scenario_trackers no_gc_functions)
              1 INSTANCE 500 scenario_after_600
  = Some (MemoryLimitExceeded (ExceededTracker 500 "Query" 1000 600),
          scenario_after_600) /\
  check_limit scenario_trackers 0 (2 ^ 40)
              (try_gc_memory scenario_trackers scenario_gc_functions)
              2 INSTANCE 500 scenario_after_600
  = Some (OK,
          gc_rounds (try_gc_memory scenario_trackers scenario_gc_functions)
                    QUERY 500 1 scenario_after_600) /\
  map (fun p =>
         current_value p
           (gc_rounds (try_gc_memory scenario_trackers scenario_gc_functions)
                      QUERY 500 1 scenario_after_600))
      [ROOT; QUERY; INSTANCE]
  = [150; 150; 600].
Proof.
  assert (Hb : 0 < 500) by lia.
  assert (G : check_sys_mem_info 0 (2 ^ 40) 500 = OK) by reflexivity.
  assert (C : ~ add64 (current_value QUERY scenario_after_600) 500
                < limit scenario_trackers QUERY).
  { vm_compute. discriminate. }
  assert (Gc : try_gc_memory scenario_trackers no_gc_functions QUERY 500
                             scenario_after_600
               = (MemoryLimitExceeded (ExceededTracker 500 "Query" 1000 600),
                  scenario_after_600)) by reflexivity.
  assert (Hs : checked_stops scenario_trackers
                 (try_gc_memory scenario_trackers scenario_gc_functions)
                 500 [(QUERY, 1%nat)] scenario_after_600).
  { split; [split|exact I].
    - intros r Hr. cbn [snd] in Hr. assert (r = 0%nat) as -> by lia.
      split; [vm_compute; discriminate|reflexivity].
    - reflexivity. }
  split; [repeat (split; [assumption|]); exact Hs|].
  split; [|split; [|reflexivity]].
  - destruct (check_limit_never_mutates
                scenario_trackers 0 (2 ^ 40)
                (try_gc_memory scenario_trackers no_gc_functions)
                INSTANCE 500 scenario_after_600 Hb)
      as (_ & _ & _ & Refused & _).
    apply (Refused G 0%nat _ _); [intros k Hk; cbn in Hk; lia|cbn; lia|exact C
                                 |exact Gc|reflexivity].
  - destruct (check_limit_never_mutates
                scenario_trackers 0 (2 ^ 40)
                (try_gc_memory scenario_trackers scenario_gc_functions)
                INSTANCE 500 scenario_after_600 Hb)
      as (_ & _ & Run & _).
    refine (proj1 (Run G 2%nat 0%nat [1%nat] _ _ _ Hs) eq_refl).
    + cbn; lia.
    + reflexivity.
    + repeat constructor.
Defined.

(** ** The label "Process" *)

Section ExemptLimits.

Variables trackers1 trackers2 : ptr -> MemTrackerLimiter.
Variable try_gc_memory : ptr -> Z -> Counters -> Status * Counters.

Hypothesis same_label :
  forall t, _label (trackers1 t) = _label (trackers2 t).
Hypothesis same_chain :
  forall t, _all_ancestors (trackers1 t) = _all_ancestors (trackers2 t).
(** The limits differ only at trackers that have a negative limit or the
    label "Process" on both sides. *)
Hypothesis same_limit_unless_exempt :
  forall t,
    _limit (trackers1 t) = _limit (trackers2 t) \/
    ((_limit (trackers1 t) < 0 \/ _label (trackers1 t) = "Process"%string) /\
     (_limit (trackers2 t) < 0 \/ _label (trackers2 t) = "Process"%string)).

Lemma exempt_test trackers t :
  (limit trackers t <? 0) || String.eqb (label trackers t) "Process" = true
  <-> (_limit (trackers t) < 0 \/ _label (trackers t) = "Process"%string).
Proof.
  unfold limit, label.
  rewrite orb_true_iff, Z.ltb_lt, String.eqb_eq. reflexivity.
Qed.

Lemma retry_same_limit fuel t b m :
  _limit (trackers1 t) = _limit (trackers2 t) ->
  try_consume_retry trackers1 try_gc_memory fuel t b m
  = try_consume_retry trackers2 try_gc_memory fuel t b m.
Proof.
  intros L. revert m. induction fuel as [|fuel IH]; intros m; [reflexivity|].
  cbn [try_consume_retry]. unfold limit. rewrite L.
  destruct (try_add t b (_limit (trackers2 t)) m); [reflexivity|].
  destruct (try_gc_memory t b m) as [st m1].
  destruct (ok st); [apply IH|reflexivity].
Qed.

Lemma rollback_same_chain self bytes i m :
  rollback trackers1 self bytes i m = rollback trackers2 self bytes i m.
Proof. unfold rollback. now rewrite same_chain. Qed.

Lemma walk_same_unless_exempt fuel self bytes k m :
  try_consume_walk trackers1 try_gc_memory fuel self bytes k m
  = try_consume_walk trackers2 try_gc_memory fuel self bytes k m.
Proof.
  revert m. induction k as [|i IH]; intros m; [reflexivity|].
  cbn [try_consume_walk]. rewrite same_chain.
  set (t := nth i (_all_ancestors (trackers2 self)) self).
  destruct (same_limit_unless_exempt t) as [L|[X1 X2]].
  - unfold limit, label. rewrite L, same_label.
    destruct ((_limit (trackers2 t) <? 0) || _); [apply IH|].
    rewrite (retry_same_limit _ _ _ _ L).
    destruct (try_consume_retry trackers2 try_gc_memory fuel t bytes m)
      as [[st m1]|]; [|reflexivity].
    destruct (ok st); [apply IH|]. now rewrite rollback_same_chain.
  - apply exempt_test in X1, X2. rewrite X1, X2. apply IH.
Qed.

Lemma try_consume_same_unless_exempt vm_rss mem_limit fuel self bytes m :
  try_consume trackers1 vm_rss mem_limit try_gc_memory fuel self bytes m
  = try_consume trackers2 vm_rss mem_limit try_gc_memory fuel self bytes m.
Proof.
  unfold try_consume, release, consume. rewrite same_chain.
  destruct (bytes <=? 0); [reflexivity|].
  destruct (check_sys_mem_info vm_rss mem_limit bytes); [|reflexivity].
  apply walk_same_unless_exempt.
Qed.

End ExemptLimits.

Lemma cache_consume_local_loop_before_process trackers ancestors bytes m :
  cache_consume_local_loop trackers ancestors bytes m
  = add_each (before_process trackers ancestors) bytes m.
Proof.
  revert m. induction ancestors as [|t l IH]; intros m; [reflexivity|].
  cbn [cache_consume_local_loop before_process]. unfold label.
  destruct (String.eqb (_label (trackers t)) "Process"); [reflexivity|].
  rewrite add_each_cons. apply IH.
Qed.

(** The trackers before the first one labelled "Process". *)
Lemma before_process_split trackers pre p post :
  Forall (fun t => _label (trackers t) <> "Process"%string) pre ->
  _label (trackers p) = "Process"%string ->
  before_process trackers (pre ++ p :: post) = pre.
Proof.
  intros F L. induction F as [|t l N F IH]; cbn [app before_process].
  - apply String.eqb_eq in L. now rewrite L.
  - apply String.eqb_neq in N. rewrite N. now f_equal.
Qed.

Lemma before_process_all trackers l :
  Forall (fun t => _label (trackers t) <> "Process"%string) l ->
  before_process trackers l = l.
Proof.
  intros F. induction F as [|t l N F IH]; cbn [before_process]; [reflexivity|].
  apply String.eqb_neq in N. rewrite N. now f_equal.
Qed.

(** A call of [cache_consume_local] that flushes leaves the accumulator at
    0 and runs the loop with the bytes of the call. *)
Lemma cache_consume_local_flush trackers min_size self bytes m :
  bytes <> 0 ->
  add64 (_untracked_mem m self) bytes <> 0 ->
  min_size <= abs64 (add64 (_untracked_mem m self) bytes) ->
  cache_consume_local trackers min_size self bytes m
  = add_each (before_process trackers (_all_ancestors (trackers self))) bytes
             (set_untracked_mem self 0
                (set_untracked_mem self (add64 (_untracked_mem m self) bytes)
                                   m)).
Proof.
  intros Nb Na C. unfold cache_consume_local.
  apply Z.eqb_neq in Nb. rewrite Nb.
  unfold add_untracked_mem. cbn [set_untracked_mem _untracked_mem].
  rewrite !upd_eq. apply Z.geb_le in C. rewrite C.
  apply Z.eqb_neq in Na. rewrite Na. cbn [negb].
  apply cache_consume_local_loop_before_process.
Qed.

(** C9.  In [try_consume] the test that exempts a tracker from its ceiling
    is "limit negative or label equal to Process", and nothing else:
    - the walk, at a tracker that passes the test, adds [bytes] and goes on,
      wherever the tracker is in the chain and whatever its limit;
    - the answer and the counters of [try_consume] do not depend on the limit
      of a tracker that passes the test: two trees with the same labels and
      chains, whose limits differ only at trackers that have a negative limit
      or the label "Process" in both, give the same result;
    - a tracker with a limit [>= 0] and another label is held to it: in a
      chain without repeats, with a GC protocol that leaves the consumption
      counters alone, a call that answers OK found
      [current_value() + bytes < limit] there.
    The same label test ends the propagation of [cache_consume_local]: a
    call that flushes adds its bytes to the trackers of the chain before the
    first one labelled "Process", once for each place, and to no other: not
    to that tracker, root or not, nor to the trackers behind it; without
    such a tracker in the chain it adds them along the whole chain. *)
Theorem process_label_exempts :
  (forall trackers try_gc_memory fuel self bytes i m,
      let tracker := nth i (_all_ancestors (trackers self)) self in
      _limit (trackers tracker) < 0 \/
      _label (trackers tracker) = "Process"%string ->
      try_consume_walk trackers try_gc_memory fuel self bytes (S i) m
      = try_consume_walk trackers try_gc_memory fuel self bytes i
                         (add tracker bytes m)) /\
  (forall trackers1 trackers2 vm_rss mem_limit try_gc_memory fuel self bytes m,
      (forall t, _label (trackers1 t) = _label (trackers2 t)) ->
      (forall t, _all_ancestors (trackers1 t) = _all_ancestors (trackers2 t)) ->
      (forall t,
          _limit (trackers1 t) = _limit (trackers2 t) \/
          ((_limit (trackers1 t) < 0 \/
            _label (trackers1 t) = "Process"%string) /\
           (_limit (trackers2 t) < 0 \/
            _label (trackers2 t) = "Process"%string))) ->
      try_consume trackers1 vm_rss mem_limit try_gc_memory fuel self bytes m
      = try_consume trackers2 vm_rss mem_limit try_gc_memory fuel self bytes m) /\
  (forall trackers vm_rss mem_limit try_gc_memory fuel self bytes m m' tracker,
      (forall t b x p,
          _consumption (snd (try_gc_memory t b x)) p = _consumption x p) ->
      NoDup (_all_ancestors (trackers self)) ->
      In tracker (_all_ancestors (trackers self)) ->
      0 <= _limit (trackers tracker) ->
      _label (trackers tracker) <> "Process"%string ->
      0 < bytes ->
      try_consume trackers vm_rss mem_limit try_gc_memory fuel self bytes m
      = Some (OK, m') ->
      add64 (current_value tracker m) bytes < _limit (trackers tracker)) /\
  (forall trackers min_size self bytes m,
      bytes <> 0 ->
      let acc := add64 (_untracked_mem m self) bytes in
      acc <> 0 ->
      min_size <= abs64 acc ->
      let m' := cache_consume_local trackers min_size self bytes m in
      let chain := _all_ancestors (trackers self) in
      (forall pre p post,
          chain = pre ++ p :: post ->
          Forall (fun t => _label (trackers t) <> "Process"%string) pre ->
          _label (trackers p) = "Process"%string ->
          (forall q, current_value q m'
                     = Nat.iter (count_occ Nat.eq_dec pre q)
                                (fun c => add64 c bytes) (current_value q m)) /\
          current_value p m' = current_value p m /\
          (forall q, In q post -> ~ In q pre ->
                     current_value q m' = current_value q m)) /\
      (Forall (fun t => _label (trackers t) <> "Process"%string) chain ->
       forall q, current_value q m'
                 = Nat.iter (count_occ Nat.eq_dec chain q)
                            (fun c => add64 c bytes) (current_value q m))).
Proof.
  split; [|split; [|split]].
  - intros trackers try_gc_memory fuel self bytes i m tracker X.
    cbn [try_consume_walk]. fold tracker.
    apply exempt_test in X. now rewrite X.
  - intros. now apply try_consume_same_unless_exempt.
  - intros trackers vm_rss mem_limit try_gc_memory fuel self bytes m m' tracker
           K D I HL HP Hb E.
    unfold try_consume in E.
    positive_request bytes.
    destruct (check_sys_mem_info vm_rss mem_limit bytes); [|discriminate].
    destruct (In_nth _ _ self I) as (i & Hi & <-).
    apply (walk_success_below _ _ K _ _ _ _ _ _ D (le_n _) E i Hi HL HP).
  - intros trackers min_size self bytes m Nb acc Na C m' chain.
    subst m'. rewrite (cache_consume_local_flush _ _ _ _ _ Nb Na C).
    assert (Count : forall l q,
               current_value q
                 (add_each l bytes
                    (set_untracked_mem self 0
                       (set_untracked_mem self acc m)))
               = Nat.iter (count_occ Nat.eq_dec l q)
                          (fun c => add64 c bytes) (current_value q m)).
    { intros l q. unfold current_value. now rewrite add_each_consumption. }
    split.
    + intros pre p post Hc F L. fold chain. rewrite Hc.
      rewrite (before_process_split _ _ _ _ F L).
      assert (Out : forall q, ~ In q pre ->
                current_value q
                  (add_each pre bytes
                     (set_untracked_mem self 0
                        (set_untracked_mem self acc m)))
                = current_value q m).
      { intros q N. rewrite Count.
        apply (count_occ_not_In Nat.eq_dec) in N. now rewrite N. }
      split; [apply Count|]. split.
      * apply Out. intros I. rewrite Forall_forall in F.
        now apply (F p I).
      * intros q _ N. now apply Out.
    + intros F q. fold chain. rewrite (before_process_all _ _ F).
      apply Count.
Qed.

(** C9 at a concrete input: a process tracker that holds a limit of 1000
    takes [try_consume(2000)] as the unlimited one does; and a
    [cache_consume_local] of 2 MB on the instance tracker, which flushes at
    a threshold of 1 MB, reaches the instance and the query tracker and
    stops at the root. *)
Lemma process_label_exempts_witness :
  (2097152 <> 0 /\
   add64 (_untracked_mem zero_counters INSTANCE) 2097152 <> 0 /\
   one_megabyte <= abs64 (add64 (_untracked_mem zero_counters INSTANCE) 2097152) /\
   _all_ancestors (scenario_trackers INSTANCE) = [INSTANCE; QUERY] ++ ROOT :: [] /\
   Forall (fun t => _label (scenario_trackers t) <> "Process"%string)
          [INSTANCE; QUERY] /\
   _label (scenario_trackers ROOT) = "Process"%string) /\
  try_consume limited_process_trackers 0 (2 ^ 40)
              (try_gc_memory scenario_trackers no_gc_functions)
              1 ROOT 2000 zero_counters
  = try_consume scenario_trackers 0 (2 ^ 40)
                (try_gc_memory scenario_trackers no_gc_functions)
                1 ROOT 2000 zero_counters /\
  current_value ROOT
    (counters_of
       (try_consume limited_process_trackers 0 (2 ^ 40)
                    (try_gc_memory scenario_trackers no_gc_functions)
                    1 ROOT 2000 zero_counters)) = 2000 /\
  map (fun q =>
         current_value q
           (cache_consume_local scenario_trackers one_megabyte INSTANCE
                                2097152 zero_counters))
      [ROOT; QUERY; INSTANCE]
  = [0; 2097152; 2097152].
Proof.
  assert (Nb : 2097152 <> 0) by discriminate.
  assert (Na : add64 (_untracked_mem zero_counters INSTANCE) 2097152 <> 0)
    by discriminate.
  assert (C : one_megabyte
              <= abs64 (add64 (_untracked_mem zero_counters INSTANCE) 2097152))
    by (vm_compute; discriminate).
  assert (Hc : _all_ancestors (scenario_trackers INSTANCE)
               = [INSTANCE; QUERY] ++ ROOT :: []) by reflexivity.
  assert (F : Forall (fun t => _label (scenario_trackers t) <> "Process"%string)
                     [INSTANCE; QUERY]).
  { repeat constructor; discriminate. }
  assert (L : _label (scenario_trackers ROOT) = "Process"%string)
    by reflexivity.
  split; [repeat (split; [assumption|]); exact L|].
  split; [|split; [reflexivity|]].
  - apply (proj1 (proj2 process_label_exempts)).
    + intros [|[|t]]; reflexivity.
    + intros [|[|t]]; reflexivity.
    + intros [|[|t]]; [right|left|left]; try reflexivity.
      split; right; reflexivity.
  - destruct (proj1 (proj2 (proj2 (proj2 process_label_exempts))
                      scenario_trackers one_megabyte INSTANCE 2097152
                      zero_counters Nb Na C)
                    [INSTANCE; QUERY] ROOT [] Hc F L) as (Hq & _).
    cbn [map]. rewrite !Hq. reflexivity.
Defined.

(** ** cache_consume_local *)

Section BatchFacts.

Variable trackers : ptr -> MemTrackerLimiter.
Variable min_size : Z.

Lemma add_untracked_mem_consumption self bytes m :
  _consumption (snd (add_untracked_mem min_size self bytes m)) = _consumption m.
Proof.
  unfold add_untracked_mem. now destruct (_ >=? _).
Qed.

Lemma before_process_labels ancestors p :
  In p (before_process trackers ancestors) ->
  _label (trackers p) <> "Process"%string.
Proof.
  induction ancestors as [|t l IH]; [intros []|].
  cbn [before_process].
  destruct (String.eqb (_label (trackers t)) "Process") eqn:X; [intros []|].
  intros [<-|I]; [now apply String.eqb_neq|now apply IH].
Qed.

(** A revision never reaches the counter of a tracker labelled "Process". *)
Lemma cache_consume_local_process self bytes m p :
  _label (trackers p) = "Process"%string ->
  _consumption (cache_consume_local trackers min_size self bytes m) p
  = _consumption m p.
Proof.
  intros L. unfold cache_consume_local.
  destruct (bytes =? 0); [reflexivity|].
  pose proof (add_untracked_mem_consumption self bytes m) as C.
  destruct (add_untracked_mem min_size self bytes m) as [r m1].
  cbn [snd] in C.
  destruct (negb (r =? 0)); [|now rewrite C].
  rewrite cache_consume_local_loop_before_process.
  rewrite add_each_consumption_not_in; [now rewrite C|].
  intros I. now apply before_process_labels in I.
Qed.

Lemma consume_once self bytes m p :
  in_range (_consumption m p) ->
  count_occ Nat.eq_dec (_all_ancestors (trackers self)) p = 1%nat ->
  _consumption (consume trackers self bytes m) p
  = wrap64 (_consumption m p + bytes).
Proof.
  intros R C. unfold consume. destruct (bytes =? 0) eqn:Z0.
  - apply Z.eqb_eq in Z0; subst. rewrite Z.add_0_r. now rewrite wrap64_id.
  - rewrite add_each_consumption, C. reflexivity.
Qed.

Lemma run_call_direct call m p :
  _label (trackers p) = "Process"%string ->
  in_range (_consumption m p) ->
  count_occ Nat.eq_dec (_all_ancestors (trackers (callee call))) p = 1%nat ->
  _consumption (run_call trackers min_size call m) p
  = wrap64 (_consumption m p + direct_bytes call).
Proof.
  intros L R C. destruct call as [self bytes|self bytes|self bytes];
    cbn [run_call direct_bytes callee] in *.
  - rewrite cache_consume_local_process by exact L.
    rewrite Z.add_0_r. now rewrite wrap64_id.
  - now apply consume_once.
  - unfold release. rewrite consume_once by assumption.
    unfold neg64. apply wrap64_add_r.
Qed.

End BatchFacts.

(** C4.  The counter of a tracker labelled "Process" (the root of the
    chains) is not changed by any sequence of [cache_consume_local] calls, on
    whatever trackers, with whatever bytes and flush threshold; and in a
    sequence that mixes them with direct [consume] and [release] calls on
    trackers whose chain holds the root once, the counter of the root ends
    at its first value plus the bytes of the direct calls, in [int64_t]
    arithmetic. *)
Theorem cache_consume_local_spares_root :
  forall trackers min_size root,
    _label (trackers root) = "Process"%string ->
    (forall revisions m,
        current_value root
          (run_calls trackers min_size
             (map (fun r => CacheConsumeLocal (fst r) (snd r)) revisions) m)
        = current_value root m) /\
    (forall calls m,
        in_range (current_value root m) ->
        (forall c, In c calls ->
                   count_occ Nat.eq_dec
                             (_all_ancestors (trackers (callee c))) root
                   = 1%nat) ->
        current_value root (run_calls trackers min_size calls m)
        = wrap64 (current_value root m + sum (map direct_bytes calls))).
Proof.
  intros trackers min_size root L. unfold current_value, run_calls. split.
  - intros revisions. induction revisions as [|[self bytes] l IH]; intros m.
    + reflexivity.
    + cbn [map fold_left fst snd run_call]. rewrite IH.
      now apply cache_consume_local_process.
  - intros calls. induction calls as [|c l IH]; intros m R C.
    + cbn. rewrite Z.add_0_r. now rewrite wrap64_id.
    + cbn [map fold_left sum fold_right].
      assert (E : _consumption (run_call trackers min_size c m) root
                  = wrap64 (_consumption m root + direct_bytes c)).
      { apply run_call_direct; [exact L|exact R|apply C; now left]. }
      rewrite IH.
      * rewrite E, wrap64_add_l. f_equal. unfold sum. lia.
      * rewrite E. apply wrap64_in_range.
      * intros c' I. apply C. now right.
Qed.

(** C4 at a concrete input: two revisions on the instance tracker, the
    second of which flushes, leave the root at zero. *)
Lemma cache_consume_local_spares_root_witness :
  _label (scenario_trackers ROOT) = "Process"%string /\
  current_value ROOT
    (run_calls scenario_trackers one_megabyte
       [CacheConsumeLocal INSTANCE 600000; CacheConsumeLocal INSTANCE 600000]
       zero_counters)
  = current_value ROOT zero_counters.
Proof.
  split; [reflexivity|].
  apply (proj1 (cache_consume_local_spares_root
                  scenario_trackers one_megabyte ROOT eq_refl)
               [(INSTANCE, 600000); (INSTANCE, 600000)] zero_counters).
Defined.

(** C3 on the code.  Two calls [cache_consume_local(600000)] on the
    instance tracker, threshold 1 MB, all counters at zero before: the first
    call leaves 600000 in the accumulator; the second brings it to 1200000,
    which [add_untracked_mem] drains and hands back, and the loop then adds
    the argument of the call, 600000, to the instance and query counters:
    the 600000 of the first call are in no counter and no accumulator. *)
Theorem cache_consume_local_adds_call_bytes :
  let m1 := cache_consume_local scenario_trackers one_megabyte
                                INSTANCE 600000 zero_counters in
  let m2 := cache_consume_local scenario_trackers one_megabyte
                                INSTANCE 600000 m1 in
  _untracked_mem m1 INSTANCE = 600000 /\
  current_value INSTANCE m1 = 0 /\
  fst (add_untracked_mem one_megabyte INSTANCE 600000 m1) = 1200000 /\
  _untracked_mem m2 INSTANCE = 0 /\
  current_value INSTANCE m2 = 600000 /\
  current_value QUERY m2 = 600000 /\
  current_value ROOT m2 = 0.
Proof. vm_compute. repeat split. Qed.

(** ** add_untracked_mem *)

Section AccumulatorFacts.

Variable min_size : Z.
Variable self : ptr.

Lemma add_untracked_mem_flush bytes m :
  min_size <= abs64 (add64 (_untracked_mem m self) bytes) ->
  fst (add_untracked_mem min_size self bytes m)
  = add64 (_untracked_mem m self) bytes /\
  _untracked_mem (snd (add_untracked_mem min_size self bytes m)) self = 0.
Proof.
  intros C. unfold add_untracked_mem, set_untracked_mem.
  cbn [_untracked_mem]. rewrite !upd_eq.
  apply Z.geb_le in C. rewrite C. cbn [fst snd _untracked_mem].
  now rewrite upd_eq.
Qed.

Lemma add_untracked_mem_keep bytes m :
  abs64 (add64 (_untracked_mem m self) bytes) < min_size ->
  fst (add_untracked_mem min_size self bytes m) = 0 /\
  _untracked_mem (snd (add_untracked_mem min_size self bytes m)) self
  = add64 (_untracked_mem m self) bytes.
Proof.
  intros C. unfold add_untracked_mem, set_untracked_mem.
  cbn [_untracked_mem]. rewrite !upd_eq.
  assert (G : (abs64 (add64 (_untracked_mem m self) bytes) >=? min_size) = false).
  { rewrite Z.geb_leb. apply Z.leb_gt. exact C. }
  rewrite G. cbn [fst snd _untracked_mem]. now rewrite upd_eq.
Qed.

(** What one call hands back and what it leaves add up to what was there
    plus the bytes of the call. *)
Lemma add_untracked_mem_step bytes m :
  _untracked_mem (snd (add_untracked_mem min_size self bytes m)) self
  + fst (add_untracked_mem min_size self bytes m)
  = add64 (_untracked_mem m self) bytes.
Proof.
  destruct (Z_le_gt_dec min_size (abs64 (add64 (_untracked_mem m self) bytes)))
    as [C|C].
  - destruct (add_untracked_mem_flush bytes m C) as [-> ->]. lia.
  - destruct (add_untracked_mem_keep bytes m ltac:(lia)) as [-> ->]. lia.
Qed.

Lemma add_untracked_mem_seq_cons bytes rest m :
  add_untracked_mem_seq min_size self (bytes :: rest) m
  = (fst (add_untracked_mem min_size self bytes m)
       :: fst (add_untracked_mem_seq min_size self rest
                 (snd (add_untracked_mem min_size self bytes m))),
     snd (add_untracked_mem_seq min_size self rest
            (snd (add_untracked_mem min_size self bytes m)))).
Proof.
  cbn [add_untracked_mem_seq].
  destruct (add_untracked_mem min_size self bytes m) as [r m1].
  cbn [fst snd].
  now destruct (add_untracked_mem_seq min_size self rest m1).
Qed.

Lemma add_untracked_mem_seq_wraps calls m :
  wrap64 (_untracked_mem (snd (add_untracked_mem_seq min_size self calls m)) self
          + sum (fst (add_untracked_mem_seq min_size self calls m)))
  = wrap64 (_untracked_mem m self + sum calls).
Proof.
  revert m. induction calls as [|b l IH]; intros m; [reflexivity|].
  rewrite add_untracked_mem_seq_cons. cbn [fst snd sum fold_right].
  fold (sum (fst (add_untracked_mem_seq min_size self l
                    (snd (add_untracked_mem min_size self b m))))).
  fold (sum l).
  pose proof (add_untracked_mem_step b m) as S.
  pose proof (IH (snd (add_untracked_mem min_size self b m))) as H.
  revert S H.
  generalize (add_untracked_mem_seq min_size self l
                (snd (add_untracked_mem min_size self b m))) as tail.
  generalize (_untracked_mem (snd (add_untracked_mem min_size self b m)) self)
    as a1.
  generalize (fst (add_untracked_mem min_size self b m)) as r.
  intros r a1 tail S H.
  replace (_untracked_mem (snd tail) self + (r + sum (fst tail)))
    with (_untracked_mem (snd tail) self + sum (fst tail) + r) by lia.
  rewrite <- wrap64_add_l, H, wrap64_add_l.
  replace (a1 + sum l + r) with (a1 + r + sum l) by lia.
  rewrite S. unfold add64. rewrite wrap64_add_l. f_equal. lia.
Qed.

Lemma add_untracked_mem_seq_exact calls m :
  min_size <= 2 ^ 62 ->
  Z.abs (_untracked_mem m self) < 2 ^ 62 ->
  Forall (fun b => Z.abs b < 2 ^ 62) calls ->
  _untracked_mem (snd (add_untracked_mem_seq min_size self calls m)) self
  + sum (fst (add_untracked_mem_seq min_size self calls m))
  = _untracked_mem m self + sum calls.
Proof.
  intros T. revert m. induction calls as [|b l IH]; intros m A F.
  - cbn. lia.
  - inversion F as [|? ? Hb Hl]; subst.
    rewrite add_untracked_mem_seq_cons. cbn [fst snd sum fold_right].
    fold (sum (fst (add_untracked_mem_seq min_size self l
                      (snd (add_untracked_mem min_size self b m))))).
    fold (sum l).
    assert (E : add64 (_untracked_mem m self) b = _untracked_mem m self + b).
    { apply wrap64_id. unfold in_range, min_value, max_value. lia. }
    pose proof (add_untracked_mem_step b m) as S. rewrite E in S.
    assert (A1 : Z.abs (_untracked_mem
                          (snd (add_untracked_mem min_size self b m)) self)
                 < 2 ^ 62).
    { destruct (Z_le_gt_dec min_size
                  (abs64 (add64 (_untracked_mem m self) b))) as [C|C].
      - destruct (add_untracked_mem_flush b m C) as [_ ->]. cbn. lia.
      - destruct (add_untracked_mem_keep b m ltac:(lia)) as [_ ->].
        rewrite E in *. rewrite abs64_abs in C; [lia| |];
          unfold in_range, min_value, max_value; lia. }
    pose proof (IH _ A1 Hl) as H. lia.
Qed.

End AccumulatorFacts.

(** C10, as the code has it.  Seen one call after the other, with [acc] the
    accumulator as it is after adding [bytes]: a call of
    [add_untracked_mem(bytes)] hands back either 0 or the whole of [acc], and
    after a non-zero value the accumulator is 0.  The test is
    [std::abs(acc) >= threshold]: when it holds the call hands back [acc]
    and leaves 0, otherwise it hands back 0 and leaves [acc].  For a
    positive threshold and [acc] other than INT64_MIN, whose [std::abs] is
    INT64_MIN itself, a non-zero value is handed back exactly when the
    magnitude of [acc] is at least the threshold; at INT64_MIN the call
    hands back 0 and keeps the accumulator.  After every sequence of calls,
    whatever the threshold, the accumulator plus the values handed back
    equals the accumulator before plus the bytes passed: in [int64_t]
    arithmetic always, and as integers when the threshold and the magnitude
    of every argument stay within 2^62. *)
Theorem add_untracked_mem_conserves :
  forall min_size self,
    (forall bytes m,
        let acc := add64 (_untracked_mem m self) bytes in
        let r := fst (add_untracked_mem min_size self bytes m) in
        let m' := snd (add_untracked_mem min_size self bytes m) in
        (r = 0 \/ r = acc) /\
        (r <> 0 -> _untracked_mem m' self = 0) /\
        (min_size <= abs64 acc -> r = acc /\ _untracked_mem m' self = 0) /\
        (abs64 acc < min_size -> r = 0 /\ _untracked_mem m' self = acc) /\
        (0 < min_size -> acc <> min_value ->
         (r <> 0 <-> min_size <= Z.abs acc)) /\
        (0 < min_size -> acc = min_value ->
         r = 0 /\ _untracked_mem m' self = acc)) /\
    (forall calls m,
        let rs := fst (add_untracked_mem_seq min_size self calls m) in
        let m' := snd (add_untracked_mem_seq min_size self calls m) in
        wrap64 (_untracked_mem m' self + sum rs)
        = wrap64 (_untracked_mem m self + sum calls) /\
        (min_size <= 2 ^ 62 ->
         Z.abs (_untracked_mem m self) < 2 ^ 62 ->
         Forall (fun b => Z.abs b < 2 ^ 62) calls ->
         _untracked_mem m' self + sum rs = _untracked_mem m self + sum calls)).
Proof.
  intros min_size self. split.
  - intros bytes m acc r m'. subst r m'.
    assert (R : in_range acc) by apply add64_in_range.
    destruct (Z_le_gt_dec min_size (abs64 acc)) as [C|C].
    + destruct (add_untracked_mem_flush min_size self bytes m C) as [-> ->].
      fold acc.
      split; [now right|]. split; [reflexivity|]. split; [now split|].
      split; [lia|]. split.
      * intros T N. rewrite abs64_abs in C by assumption. split; lia.
      * intros T ->. rewrite abs64_min_value in C. unfold min_value in C. lia.
    + destruct (add_untracked_mem_keep min_size self bytes m (Z.gt_lt _ _ C))
        as [-> ->].
      fold acc.
      split; [now left|]. split; [intros N; now contradiction N|].
      split; [lia|]. split; [now split|]. split.
      * intros T N. rewrite abs64_abs in C by assumption. split; lia.
      * intros T E. now split.
  - intros calls m rs m'. split.
    + apply add_untracked_mem_seq_wraps.
    + intros B A F. apply add_untracked_mem_seq_exact; auto.
Qed.

(** C10 at a concrete input: three calls with a threshold of 1 MB, the
    second of which brings the accumulator to 1200000 and flushes. *)
Lemma add_untracked_mem_conserves_witness :
  (0 < one_megabyte /\
   add64 (_untracked_mem zero_counters INSTANCE) 1200000 <> min_value) /\
  (fst (add_untracked_mem one_megabyte INSTANCE 1200000 zero_counters) <> 0
   <-> one_megabyte
       <= Z.abs (add64 (_untracked_mem zero_counters INSTANCE) 1200000)) /\
  add_untracked_mem_seq one_megabyte INSTANCE [600000; 600000; 5]
                        zero_counters
  = ([0; 1200000; 0],
     snd (add_untracked_mem_seq one_megabyte INSTANCE [600000; 600000; 5]
                                zero_counters)) /\
  wrap64 (_untracked_mem
            (snd (add_untracked_mem_seq one_megabyte INSTANCE
                    [600000; 600000; 5] zero_counters)) INSTANCE
          + sum (fst (add_untracked_mem_seq one_megabyte INSTANCE
                        [600000; 600000; 5] zero_counters)))
  = wrap64 (_untracked_mem zero_counters INSTANCE + sum [600000; 600000; 5]).
Proof.
  assert (T : 0 < one_megabyte) by reflexivity.
  assert (N : add64 (_untracked_mem zero_counters INSTANCE) 1200000
              <> min_value) by discriminate.
  split; [split; assumption|]. split; [|split; [reflexivity|]].
  - destruct (proj1 (add_untracked_mem_conserves one_megabyte INSTANCE)
                    1200000 zero_counters) as (_ & _ & _ & _ & H & _).
    exact (H T N).
  - exact (proj1 (proj2 (add_untracked_mem_conserves one_megabyte INSTANCE)
                        [600000; 600000; 5] zero_counters)).
Defined.

(** C10 as stated fails at two points.  When a call brings the accumulator
    to INT64_MIN, its magnitude is above every threshold, yet [std::abs]
    answers INT64_MIN, the test fails, and the call hands back 0 and keeps
    the accumulator.  And with a threshold of 0 a call that leaves the
    accumulator at 0 passes the test and hands back 0. *)
Lemma add_untracked_mem_magnitude_unmet :
  (one_megabyte
   <= Z.abs (add64 (_untracked_mem zero_counters INSTANCE) min_value) /\
   fst (add_untracked_mem one_megabyte INSTANCE min_value zero_counters) = 0 /\
   _untracked_mem
     (snd (add_untracked_mem one_megabyte INSTANCE min_value zero_counters))
     INSTANCE = min_value) /\
  (0 <= Z.abs (add64 (_untracked_mem zero_counters INSTANCE) 0) /\
   fst (add_untracked_mem 0 INSTANCE 0 zero_counters) = 0).
Proof.
  split; [split; [|split]|split]; try reflexivity.
  vm_compute. discriminate.
Qed.

(** ** Limits under try_consume when the callbacks free nothing *)

Section LimitFacts.

Variable trackers : ptr -> MemTrackerLimiter.
Variables vm_rss mem_limit : Z.
Variable gc_functions : ptr -> list GcFunction.

Hypothesis callbacks_free_nothing :
  forall t f, In f (gc_functions t) -> forall b x, f b x = x.

Local Abbreviation gc := (try_gc_memory trackers gc_functions).
Local Abbreviation chain self := (_all_ancestors (trackers self)).

Lemma gc_frees_nothing t b x : snd (gc t b x) = x.
Proof. now apply try_gc_memory_frees_nothing. Qed.

Lemma gc_keeps_consumption t b x p :
  _consumption (snd (gc t b x)) p = _consumption x p.
Proof. now rewrite gc_frees_nothing. Qed.

(** Without room the loop fails at its first iteration. *)
Lemma retry_no_room fuel t b m :
  limit trackers t <= add64 (current_value t m) b ->
  exists st, ok st = false /\
             try_consume_retry trackers gc (S fuel) t b m = Some (st, m).
Proof.
  intros C. cbn [try_consume_retry]. unfold try_add.
  pose proof C as C'. apply Z.ltb_ge in C'. rewrite C'.
  pose proof (try_gc_memory_verdict trackers gc_functions
                callbacks_free_nothing t b m C) as V.
  pose proof (gc_frees_nothing t b m) as F.
  destruct (gc t b m) as [st m1]. cbn [fst snd] in V, F. subst st m1.
  eexists. split; [|reflexivity]. reflexivity.
Qed.

(** Every walk returns. *)
Lemma walk_returns fuel self bytes k m :
  exists st m',
    try_consume_walk trackers gc (S fuel) self bytes k m = Some (st, m').
Proof.
  revert m. induction k as [|i IH]; intros m; [now eexists _, _|].
  cbn [try_consume_walk].
  set (t := nth i (chain self) self).
  destruct ((limit trackers t <? 0) || String.eqb (label trackers t) "Process");
    [apply IH|].
  destruct (Z_lt_le_dec (add64 (current_value t m) bytes) (limit trackers t))
    as [C|C].
  - rewrite retry_below by exact C. cbn [ok]. apply IH.
  - destruct (retry_no_room fuel t bytes m C) as (st & K & ->).
    rewrite K. now eexists _, _.
Qed.

Lemma try_consume_returns fuel self bytes m :
  exists st m',
    try_consume trackers vm_rss mem_limit gc (S fuel) self bytes m
    = Some (st, m').
Proof.
  unfold try_consume. destruct (bytes <=? 0); [now eexists _, _|].
  destruct (check_sys_mem_info vm_rss mem_limit bytes);
    [apply walk_returns|now eexists _, _].
Qed.

(** A walk that succeeds has added the bytes and done nothing else. *)
Lemma walk_success_add_each fuel self bytes m m' :
  try_consume_walk trackers gc fuel self bytes (List.length (chain self)) m
  = Some (OK, m') ->
  m' = add_each (rev (chain self)) bytes m.
Proof.
  intros E. destruct (walk_success _ _ _ _ _ _ _ _ (le_n _) E) as (ps & L & ->).
  clear E. rewrite firstn_all. rewrite <- (length_rev (chain self)) in L.
  revert L. generalize (rev (chain self)) as l. intros l. revert ps m.
  induction l as [|t l IH]; intros [|n ps] m L; try discriminate.
  - reflexivity.
  - cbn [combine fold_left]. rewrite add_each_cons.
    unfold gc_stop_add at 2. unfold gc_stop. cbn [fst snd].
    rewrite (rounds_frees_nothing _ gc_frees_nothing).
    apply IH. now inversion L.
Qed.

Section OneCall.

Variables (self tracker : ptr) (fuel : nat).

Hypothesis chain_nodup : NoDup (chain self).
Hypothesis tracker_in_chain : In tracker (chain self).
Hypothesis tracker_limited : 0 <= limit trackers tracker.
Hypothesis tracker_not_process : label trackers tracker <> "Process"%string.

(** One call, seen from a tracker of the chain that is held to its limit. *)
Lemma try_consume_one_call bytes m :
  0 < bytes ->
  counters_ok m ->
  exists st m',
    try_consume trackers vm_rss mem_limit gc (S fuel) self bytes m
    = Some (st, m') /\
    counters_ok m' /\
    (ok st = true ->
     add64 (current_value tracker m) bytes < limit trackers tracker /\
     current_value tracker m' = add64 (current_value tracker m) bytes) /\
    (ok st = false -> current_value tracker m' = current_value tracker m) /\
    ((forall t, In t (chain self) -> t <> tracker ->
                _limit (trackers t) < 0 \/
                _label (trackers t) = "Process"%string) ->
     check_sys_mem_info vm_rss mem_limit bytes = OK ->
     ok st = (add64 (current_value tracker m) bytes <? limit trackers tracker)).
Proof.
  intros Hb W.
  destruct (try_consume_returns fuel self bytes m) as (st & m' & E).
  exists st, m'. split; [exact E|].
  assert (Succ : ok st = true ->
            m' = add_each (rev (chain self)) bytes m /\
            add64 (current_value tracker m) bytes < limit trackers tracker).
  { intros K. apply ok_true in K; subst st.
    pose proof E as E'. unfold try_consume in E'.
    positive_request bytes.
    destruct (check_sys_mem_info vm_rss mem_limit bytes); [|discriminate].
    split; [now apply (walk_success_add_each (S fuel))|].
    destruct (In_nth _ _ self tracker_in_chain) as (i & Hi & <-).
    apply (walk_success_below _ _ gc_keeps_consumption _ _ _ _ _ _
             chain_nodup (le_n _) E' i Hi tracker_limited tracker_not_process). }
  assert (Fail : ok st = false ->
            (forall p, _consumption m' p = _consumption m p) /\
            (forall p, _untracked_mem m' p = _untracked_mem m p)).
  { intros K.
    apply (try_consume_failure_restores _ _ _ _ gc_frees_nothing
             _ _ _ _ _ _ W Hb E K). }
  split; [|split; [|split]].
  - destruct (ok st) eqn:K.
    + destruct (Succ eq_refl) as [-> _]. now apply add_each_counters_ok.
    + destruct (Fail eq_refl) as [Hc Hu]. intros p. rewrite Hc, Hu. apply W.
  - intros K. destruct (Succ K) as [-> B]. split; [exact B|].
    unfold current_value. apply add_each_consumption_once.
    + now apply NoDup_rev.
    + now apply in_rev in tracker_in_chain.
  - intros K. now apply Fail.
  - intros Alone G.
    destruct (add64 (current_value tracker m) bytes <? limit trackers tracker)
      eqn:C.
    + apply Z.ltb_lt in C.
      unfold try_consume in E.
      positive_request bytes.
      rewrite G in E.
      rewrite walk_all_below in E; [now inversion E|exact chain_nodup|lia|].
      intros i Hi t HL HP.
      destruct (Nat.eq_dec t tracker) as [->|N]; [exact C|].
      destruct (Alone t (nth_In _ _ Hi) N) as [X|X]; [unfold limit in HL; lia|].
      now elim HP.
    + apply Z.ltb_ge in C. destruct (ok st) eqn:K; [|reflexivity].
      destruct (Succ eq_refl) as [_ B]. lia.
Qed.

End OneCall.

End LimitFacts.

(** ** try_consume: the error of a failure *)

(** In a chain without repeats the tracker at a place is none of those
    behind it. *)
Lemma nth_error_not_in_skipn (l : list ptr) :
  forall i x, NoDup l -> nth_error l i = Some x -> ~ In x (skipn (S i) l).
Proof.
  induction l as [|a l IH]; intros [|i] x D E; try discriminate.
  - cbn in E. inversion E; subst. cbn [skipn]. now inversion D.
  - cbn in E. change (skipn (S (S i)) (a :: l)) with (skipn (S i) l).
    apply IH; [now inversion D|exact E].
Qed.

(** C1, as the code has it.  When [try_consume(bytes)], [bytes > 0],
    answers an error and the GC protocol frees nothing (it hands the counters
    back as they were), every counter is what it was before the call.  The
    error is either the one of [check_sys_mem_info], answered before any
    counter is touched, or the error that [try_gc_memory] answered for the
    tracker at some place [i] of the chain: that tracker holds a limit, is
    not labelled "Process", and could not take [bytes] on top of its
    consumption; the trackers above place [i], which had received [bytes],
    have each received [-bytes], in the same order.  With the GC protocol of
    the specification, whose error carries the label, the limit and the
    consumption of the tracker it was asked about, the error of the second
    kind names that tracker, the one whose ceiling stopped the walk, with
    its limit and, in a chain without repeats, its consumption before the
    call.  And the failure is answered: when a tracker of the chain with a
    limit and another label than "Process" has no room for the bytes, the
    call returns an error, at the first iteration of its loop. *)
Theorem try_consume_failure_restores_counters :
  forall trackers vm_rss mem_limit fuel self bytes m,
    counters_ok m ->
    0 < bytes ->
    let chain := _all_ancestors (trackers self) in
    (forall try_gc_memory st m',
        (forall t b x, snd (try_gc_memory t b x) = x) ->
        try_consume trackers vm_rss mem_limit try_gc_memory fuel self bytes m
        = Some (st, m') ->
        ok st = false ->
        (forall p, current_value p m' = current_value p m) /\
        (forall p, _untracked_mem m' p = _untracked_mem m p) /\
        ((st = MemoryLimitExceeded (ProcessMemoryUsed vm_rss mem_limit bytes) /\
          mem_limit <= add64 vm_rss bytes /\ m' = m) \/
         (exists i tracker,
             nth_error chain i = Some tracker /\
             0 <= limit trackers tracker /\
             label trackers tracker <> "Process"%string /\
             let added := rev (skipn (S i) chain) in
             let m_i := add_each added bytes m in
             limit trackers tracker <= add64 (current_value tracker m_i) bytes /\
             st = fst (try_gc_memory tracker bytes m_i) /\
             m' = add_each added (neg64 bytes) m_i))) /\
    (forall gc_functions st m',
        (forall t f, In f (gc_functions t) -> forall b x, f b x = x) ->
        try_consume trackers vm_rss mem_limit
                    (try_gc_memory trackers gc_functions) fuel self bytes m
        = Some (st, m') ->
        ok st = false ->
        (st = MemoryLimitExceeded (ProcessMemoryUsed vm_rss mem_limit bytes) /\
         mem_limit <= add64 vm_rss bytes) \/
        (exists i tracker,
            nth_error chain i = Some tracker /\
            0 <= limit trackers tracker /\
            label trackers tracker <> "Process"%string /\
            let m_i := add_each (rev (skipn (S i) chain)) bytes m in
            limit trackers tracker <= add64 (current_value tracker m_i) bytes /\
            st = MemoryLimitExceeded
                   (ExceededTracker bytes (label trackers tracker)
                                    (limit trackers tracker)
                                    (current_value tracker m_i)) /\
            (NoDup chain ->
             current_value tracker m_i = current_value tracker m))) /\
    (forall gc_functions tracker,
        (forall t f, In f (gc_functions t) -> forall b x, f b x = x) ->
        NoDup chain ->
        In tracker chain ->
        0 <= limit trackers tracker ->
        label trackers tracker <> "Process"%string ->
        limit trackers tracker <= add64 (current_value tracker m) bytes ->
        forall fuel',
        exists st m',
          try_consume trackers vm_rss mem_limit
                      (try_gc_memory trackers gc_functions)
                      (S fuel') self bytes m
          = Some (st, m') /\
          ok st = false).
Proof.
  intros trackers vm_rss mem_limit fuel self bytes m W Hb chain.
  assert (General : forall try_gc_memory st m',
             (forall t b x, snd (try_gc_memory t b x) = x) ->
             try_consume trackers vm_rss mem_limit try_gc_memory fuel self
                         bytes m
             = Some (st, m') ->
             ok st = false ->
             (forall p, current_value p m' = current_value p m) /\
             (forall p, _untracked_mem m' p = _untracked_mem m p) /\
             ((st = MemoryLimitExceeded
                      (ProcessMemoryUsed vm_rss mem_limit bytes) /\
               mem_limit <= add64 vm_rss bytes /\ m' = m) \/
              (exists i tracker,
                  nth_error chain i = Some tracker /\
                  0 <= limit trackers tracker /\
                  label trackers tracker <> "Process"%string /\
                  let added := rev (skipn (S i) chain) in
                  let m_i := add_each added bytes m in
                  limit trackers tracker
                  <= add64 (current_value tracker m_i) bytes /\
                  st = fst (try_gc_memory tracker bytes m_i) /\
                  m' = add_each added (neg64 bytes) m_i))).
  { intros try_gc_memory st m' FN E K.
    unfold try_consume in E.
    positive_request bytes.
    unfold check_sys_mem_info in E.
    destruct (add64 vm_rss bytes >=? mem_limit) eqn:G.
    - inversion E; subst. repeat split. left. repeat split.
      apply Z.geb_le in G. exact G.
    - destruct (walk_failure _ _ FN _ _ _ _ _ _ _ (le_n _) E K)
        as (i & Hi & HL & HP & HC & Hst & Hm).
      rewrite firstn_all in *. rewrite rollback_add_each in Hm.
      destruct (walk_failure_restores _ _ FN _ _ _ _ _ _ W E K) as [Hc Hu].
      split; [exact Hc|]. split; [exact Hu|].
      right. exists i, (nth i (_all_ancestors (trackers self)) self).
      split; [now apply nth_error_nth_lt|].
      cbn zeta. now repeat split. }
  split; [exact General|]. split.
  - intros gc_functions st m' Free E K.
    destruct (General _ st m'
                (try_gc_memory_frees_nothing trackers gc_functions Free) E K)
      as (_ & _ & [(Hst & G & _)|(i & tracker & Hn & HL & HP & H)]).
    + left. now split.
    + right. exists i, tracker. cbn zeta in H. destruct H as (HC & Hst & _).
      split; [exact Hn|]. split; [exact HL|]. split; [exact HP|].
      cbn zeta. split; [exact HC|]. split.
      * rewrite Hst. now apply try_gc_memory_verdict.
      * intros D. unfold current_value.
        apply add_each_consumption_not_in. rewrite <- in_rev.
        now apply nth_error_not_in_skipn.
  - intros gc_functions tracker Free D I HL HP C fuel'. unfold chain in *.
    destruct (try_consume_returns trackers vm_rss mem_limit gc_functions Free
                fuel' self bytes m) as (st & m' & E).
    exists st, m'. split; [exact E|].
    destruct (ok st) eqn:K; [|reflexivity].
    apply ok_true in K; subst st.
    unfold try_consume in E. positive_request bytes.
    destruct (check_sys_mem_info vm_rss mem_limit bytes); [|discriminate].
    destruct (In_nth _ _ self I) as (i & Hi & Ht).
    pose proof (walk_success_below trackers
                  (try_gc_memory trackers gc_functions)
                  (gc_keeps_consumption trackers gc_functions Free)
                  (S fuel') self bytes _ m m' D (le_n _) E i Hi) as B.
    cbn zeta in B. rewrite Ht in B. specialize (B HL HP). lia.
Qed.

(** C1 at a concrete input: after [try_consume(600)], [try_consume(500)] on
    the instance tracker fails, leaves root, query and instance at 600, and
    its error names a tracker of the chain with its limit and consumption:
    the query tracker (limit 1000, consumption 600). *)
Lemma try_consume_failure_restores_counters_witness :
  (counters_ok scenario_after_600 /\ 0 < 500 /\
   (forall t f, In f (no_gc_functions t) -> forall b x, f b x = x) /\
   NoDup (_all_ancestors (scenario_trackers INSTANCE))) /\
  (exists m',
      scenario_try_consume no_gc_functions 1 INSTANCE 500 scenario_after_600
      = Some (MemoryLimitExceeded (ExceededTracker 500 "Query" 1000 600), m') /\
      (forall p, current_value p m' = current_value p scenario_after_600) /\
      exists tracker,
        In tracker (_all_ancestors (scenario_trackers INSTANCE)) /\
        MemoryLimitExceeded (ExceededTracker 500 "Query" 1000 600)
        = MemoryLimitExceeded
            (ExceededTracker 500 (label scenario_trackers tracker)
                             (limit scenario_trackers tracker)
                             (current_value tracker scenario_after_600))).
Proof.
  assert (W : counters_ok scenario_after_600).
  { intros p. unfold in_range, min_value, max_value.
    destruct p as [|[|[|p]]]; vm_compute; repeat split; discriminate. }
  assert (D : NoDup (_all_ancestors (scenario_trackers INSTANCE))).
  { repeat constructor; cbn; intuition discriminate. }
  split; [split; [exact W|]; split; [lia|]; split;
          [exact no_gc_functions_free_nothing|exact D]|].
  destruct (try_consume_failure_restores_counters
              scenario_trackers 0 (2 ^ 40) 1 INSTANCE 500 scenario_after_600
              W ltac:(lia)) as (General & Named & _).
  eexists. split; [reflexivity|]. split.
  - apply (General (try_gc_memory scenario_trackers no_gc_functions) _ _
             (try_gc_memory_frees_nothing scenario_trackers no_gc_functions
                no_gc_functions_free_nothing)
             eq_refl eq_refl).
  - destruct (Named no_gc_functions _ _ no_gc_functions_free_nothing
                    eq_refl eq_refl)
      as [[Hst _]|(i & tracker & Hn & _ & _ & H)]; [discriminate|].
    cbn zeta in H. destruct H as (_ & Hst & Hd).
    exists tracker. split; [now apply nth_error_In in Hn|].
    rewrite <- (Hd D). exact Hst.
Defined.

(** C1 as stated fails when the SysMemGuard rejects the request: the error
    of [check_sys_mem_info] is answered, which names no tracker and is not
    an answer of [try_gc_memory] for any ancestor. *)
Lemma try_consume_error_names_no_ancestor :
  exists st,
    try_consume scenario_trackers 1000 1000
                (try_gc_memory scenario_trackers no_gc_functions)
                1 INSTANCE 1 zero_counters
    = Some (st, zero_counters) /\
    ok st = false /\
    (forall failed tracker lim used,
        st <> MemoryLimitExceeded (ExceededTracker failed tracker lim used)) /\
    (forall tracker b x,
        st <> fst (try_gc_memory scenario_trackers no_gc_functions tracker b x)).
Proof.
  eexists. split; [reflexivity|]. split; [reflexivity|]. split.
  - intros failed tracker lim used. discriminate.
  - intros tracker b x. unfold try_gc_memory.
    destruct (_ <? _); discriminate.
Qed.

Lemma respects_limit_bound L calls :
  forall sts c c',
    respects_limit L c calls sts c' -> c <= L -> c' <= L.
Proof.
  induction calls as [|b l IH]; intros [|st sts] c c' R B; cbn in R;
    try contradiction.
  - now subst.
  - destruct (ok st).
    + destruct R as [Hlt R]. apply (IH _ _ _ R). lia.
    + now apply (IH _ _ _ R).
Qed.

Lemma limit_monotonicity_cons L c b l :
  limit_monotonicity L c (b :: l)
  = ((add64 c b <? L)
       :: fst (limit_monotonicity L (if add64 c b <? L then add64 c b else c) l),
     snd (limit_monotonicity L (if add64 c b <? L then add64 c b else c) l)).
Proof.
  cbn [limit_monotonicity]. destruct (add64 c b <? L).
  - now destruct (limit_monotonicity L (add64 c b) l).
  - now destruct (limit_monotonicity L c l).
Qed.

(** C5, as the code has it.  Take a tracker of the chain of [self] that holds
    a limit [L >= 0] and is not labelled "Process", a chain without repeats,
    GC callbacks that free nothing and counters that hold [int64_t] values.
    Then every sequence of [try_consume(b)] calls on [self], each [b > 0],
    returns (one iteration of each loop is enough), and seen from the
    tracker: a call that succeeds found [consumption + b < L] and adds [b];
    a call fails whenever [consumption + b] would reach [L], and a failed
    call leaves the consumption as it was; a consumption that is at most [L]
    before the calls is at most [L] after them.  When the tracker is the only
    one of the chain held to a limit and the SysMemGuard admits every call,
    the calls succeed exactly as long as [consumption + b < L]: answers and
    consumption are those of [limit_monotonicity]. *)
Theorem try_consume_respects_limit :
  forall trackers vm_rss mem_limit gc_functions fuel self tracker calls m,
    (forall t f, In f (gc_functions t) -> forall b x, f b x = x) ->
    0 <= _limit (trackers tracker) ->
    _label (trackers tracker) <> "Process"%string ->
    NoDup (_all_ancestors (trackers self)) ->
    In tracker (_all_ancestors (trackers self)) ->
    counters_ok m ->
    Forall (fun b => 0 < b) calls ->
    let L := _limit (trackers tracker) in
    exists sts m',
      try_consume_seq trackers vm_rss mem_limit
                      (try_gc_memory trackers gc_functions)
                      (S fuel) self calls m
      = Some (sts, m') /\
      respects_limit L (current_value tracker m) calls sts
                     (current_value tracker m') /\
      (current_value tracker m <= L -> current_value tracker m' <= L) /\
      ((forall t, In t (_all_ancestors (trackers self)) -> t <> tracker ->
                  _limit (trackers t) < 0 \/
                  _label (trackers t) = "Process"%string) ->
       Forall (fun b => check_sys_mem_info vm_rss mem_limit b = OK) calls ->
       map ok sts = fst (limit_monotonicity L (current_value tracker m) calls) /\
       current_value tracker m'
       = snd (limit_monotonicity L (current_value tracker m) calls)).
Proof.
  intros trackers vm_rss mem_limit gc_functions fuel self tracker calls m
         F HL HP D I W Pos L.
  assert (Main : exists sts m',
    try_consume_seq trackers vm_rss mem_limit
                    (try_gc_memory trackers gc_functions) (S fuel) self calls m
    = Some (sts, m') /\
    respects_limit L (current_value tracker m) calls sts
                   (current_value tracker m') /\
    ((forall t, In t (_all_ancestors (trackers self)) -> t <> tracker ->
                _limit (trackers t) < 0 \/
                _label (trackers t) = "Process"%string) ->
     Forall (fun b => check_sys_mem_info vm_rss mem_limit b = OK) calls ->
     map ok sts = fst (limit_monotonicity L (current_value tracker m) calls) /\
     current_value tracker m'
     = snd (limit_monotonicity L (current_value tracker m) calls))).
  { revert m W. induction Pos as [|b l Hb Pos IH]; intros m W.
    - exists [], m. cbn. repeat split.
    - destruct (try_consume_one_call trackers vm_rss mem_limit gc_functions F
                  self tracker fuel D I HL HP b m Hb W)
        as (st & m1 & E1 & W1 & Succ & Fail & Alone).
      destruct (IH m1 W1) as (sts & m' & Es & R & Iso).
      exists (st :: sts), m'. split; [|split].
      + cbn [try_consume_seq]. now rewrite E1, Es.
      + cbn [respects_limit]. destruct (ok st).
        * destruct (Succ eq_refl) as [B C]. split; [exact B|].
          now rewrite <- C.
        * now rewrite <- (Fail eq_refl).
      + intros A G. inversion G as [|? ? Gb Gl]; subst.
        rewrite limit_monotonicity_cons. cbn [fst snd map].
        specialize (Alone A Gb).
        change (limit trackers tracker) with L in Alone. rewrite <- Alone.
        destruct (ok st).
        * destruct (Succ eq_refl) as [_ C]. rewrite <- C.
          destruct (Iso A Gl) as [-> ->]. now split.
        * rewrite <- (Fail eq_refl).
          destruct (Iso A Gl) as [-> ->]. now split. }
  destruct Main as (sts & m' & E & R & Iso).
  exists sts, m'. repeat split; try assumption.
  - now apply (respects_limit_bound L calls sts).
  - now apply Iso.
  - now apply Iso.
Qed.

(** C5 at a concrete input: [try_consume] of 600, 500 and 300 on the
    instance tracker, seen from the query tracker (limit 1000). *)
Lemma try_consume_respects_limit_witness :
  (0 <= _limit (scenario_trackers QUERY) /\
   _label (scenario_trackers QUERY) <> "Process"%string /\
   counters_ok zero_counters /\
   Forall (fun b => 0 < b) [600; 500; 300]) /\
  exists sts m',
    try_consume_seq scenario_trackers 0 (2 ^ 40)
                    (try_gc_memory scenario_trackers no_gc_functions)
                    1 INSTANCE [600; 500; 300] zero_counters
    = Some (sts, m') /\
    respects_limit 1000 0 [600; 500; 300] sts (current_value QUERY m').
Proof.
  assert (W : counters_ok zero_counters).
  { intros p. unfold in_range, min_value, max_value. cbn. lia. }
  assert (P : Forall (fun b => 0 < b) [600; 500; 300]).
  { repeat constructor. }
  assert (D : NoDup (_all_ancestors (scenario_trackers INSTANCE))).
  { repeat constructor; cbn; intuition discriminate. }
  assert (N : _label (scenario_trackers QUERY) <> "Process"%string)
    by discriminate.
  split; [repeat split; try assumption; cbn; lia|].
  destruct (try_consume_respects_limit
              scenario_trackers 0 (2 ^ 40) no_gc_functions 0 INSTANCE QUERY
              [600; 500; 300] zero_counters
              no_gc_functions_free_nothing ltac:(cbn; lia) N D
              ltac:(cbn; auto) W P)
    as (sts & m' & E & R & _).
  exists sts, m'. split; [exact E|exact R].
Defined.

(** C5 as stated fails at a tracker labelled "Process" that holds a limit:
    with a limit of 1000 and no consumption, [try_consume(2000)] on it
    succeeds and leaves its consumption at 2000. *)
Lemma process_tracker_exceeds_limit :
  _limit (limited_process_trackers ROOT) = 1000 /\
  exists m',
    try_consume limited_process_trackers 0 (2 ^ 40)
                (try_gc_memory limited_process_trackers no_gc_functions)
                1 ROOT 2000 zero_counters
    = Some (OK, m') /\
    current_value ROOT zero_counters = 0 /\
    current_value ROOT m' = 2000 /\
    ~ (add64 0 2000 < 1000) /\
    ~ (current_value ROOT m' <= 1000).
Proof.
  split; [reflexivity|]. eexists. split; [reflexivity|].
  split; [reflexivity|]. split; [reflexivity|].
  split; intros H; vm_compute in H; [discriminate|now apply H].
Qed.

(** ** The scenario of section 8 *)

(** C6.  In root (unlimited) -> query tracker (limit 1000) -> instance
    tracker (unlimited), all counters at zero and a SysMemGuard far from its
    ceiling:
    - [try_consume(600)] on the instance tracker succeeds and leaves 600 at
      root, query and instance;
    - with no GC function, [try_consume(500)] then fails with the error of
      the query tracker (limit 1000, consumption 600): the root, which had
      received the 500 and stood at 1100 when the query tracker was tried,
      is back at 600, and so are the query and the instance tracker;
    - with a GC function on the query tracker that releases 450 bytes there
      when invoked, [try_consume(500)] succeeds instead: root and query end
      at 650, the instance at 1100. *)
Theorem scenario_600_then_500 :
  scenario_try_consume no_gc_functions 1 INSTANCE 600 zero_counters
  = Some (OK, scenario_after_600) /\
  map (fun p => current_value p scenario_after_600) [ROOT; QUERY; INSTANCE]
  = [600; 600; 600] /\
  (forall fuel,
      exists m',
        scenario_try_consume no_gc_functions (S fuel) INSTANCE 500
                             scenario_after_600
        = Some (MemoryLimitExceeded (ExceededTracker 500 "Query" 1000 600), m') /\
        m' = add ROOT (neg64 500) (add ROOT 500 scenario_after_600) /\
        current_value ROOT (add ROOT 500 scenario_after_600) = 1100 /\
        map (fun p => current_value p m') [ROOT; QUERY; INSTANCE]
        = [600; 600; 600]) /\
  (forall fuel,
      exists m',
        scenario_try_consume scenario_gc_functions (S (S fuel)) INSTANCE 500
                             scenario_after_600
        = Some (OK, m') /\
        map (fun p => current_value p m') [ROOT; QUERY; INSTANCE]
        = [650; 650; 1100]).
Proof.
  split; [reflexivity|]. split; [reflexivity|]. split.
  - intros fuel. eexists. split; [reflexivity|].
    split; [reflexivity|]. split; reflexivity.
  - intros fuel. eexists. split; reflexivity.
Qed.

(** * Further properties of the operations *)

(** ** consume and release *)

Section ConsumeFacts.

Lemma neg64_zero b : in_range b -> neg64 b = 0 -> b = 0.
Proof.
  intros R E. rewrite <- (neg64_involutive b R), E. reflexivity.
Qed.

Lemma add64_swap c a b : add64 (add64 c a) b = add64 (add64 c b) a.
Proof.
  unfold add64. rewrite !wrap64_add_l. f_equal. lia.
Qed.

Lemma add64_cancel_neg c b :
  in_range c -> add64 (add64 c (neg64 b)) b = c.
Proof.
  intros R. unfold add64, neg64.
  rewrite wrap64_add_l. rewrite (Z.add_comm c), <- Z.add_assoc, wrap64_add_l.
  replace (- b + (c + b)) with c by lia. now apply wrap64_id.
Qed.

Lemma iter_add64_cancel_neg n d c :
  in_range c ->
  Nat.iter n (fun x => add64 x d) (Nat.iter n (fun x => add64 x (neg64 d)) c)
  = c.
Proof.
  intros R. induction n as [|n IH]; [reflexivity|].
  rewrite (iter_S_inner (fun x => add64 x d)).
  change (Nat.iter (S n) (fun x => add64 x (neg64 d)) c)
    with (add64 (Nat.iter n (fun x => add64 x (neg64 d)) c) (neg64 d)).
  rewrite add64_cancel_neg by now apply iter_add64_in_range.
  exact IH.
Qed.

Lemma iter_add64_push k a b x :
  add64 (Nat.iter k (fun y => add64 y b) x) a
  = Nat.iter k (fun y => add64 y b) (add64 x a).
Proof.
  induction k as [|k IH]; [reflexivity|].
  rewrite !Nat.iter_succ, add64_swap, IH. reflexivity.
Qed.

Lemma iter_add64_comm n k a b c :
  Nat.iter n (fun x => add64 x a) (Nat.iter k (fun x => add64 x b) c)
  = Nat.iter k (fun x => add64 x b) (Nat.iter n (fun x => add64 x a) c).
Proof.
  induction n as [|n IH]; [reflexivity|].
  rewrite !Nat.iter_succ, IH. apply iter_add64_push.
Qed.

Variable trackers : ptr -> MemTrackerLimiter.

Lemma consume_consumption self bytes m p :
  bytes <> 0 ->
  _consumption (consume trackers self bytes m) p
  = Nat.iter (count_occ Nat.eq_dec (_all_ancestors (trackers self)) p)
             (fun c => add64 c bytes) (_consumption m p).
Proof.
  intros N. unfold consume. apply Z.eqb_neq in N. rewrite N.
  apply add_each_consumption.
Qed.

Lemma consume_untracked_mem self bytes m :
  _untracked_mem (consume trackers self bytes m) = _untracked_mem m.
Proof.
  unfold consume. destruct (bytes =? 0); [reflexivity|].
  apply add_each_untracked_mem.
Qed.

Lemma consume_zero self m : consume trackers self 0 m = m.
Proof. reflexivity. Qed.

End ConsumeFacts.

(** X1.  [release(bytes)] undoes [consume(bytes)] and [consume(bytes)]
    undoes [release(bytes)]: after the two calls on one tracker every
    consumption counter and every accumulator is what it was, whatever the
    chain and the value of [bytes] (a wrap-around in between included). *)
Theorem consume_release_round_trip :
  forall trackers self bytes m,
    in_range bytes ->
    counters_ok m ->
    (forall p,
        current_value p (release trackers self bytes
                                 (consume trackers self bytes m))
        = current_value p m /\
        current_value p (consume trackers self bytes
                                 (release trackers self bytes m))
        = current_value p m) /\
    _untracked_mem (release trackers self bytes (consume trackers self bytes m))
    = _untracked_mem m /\
    _untracked_mem (consume trackers self bytes (release trackers self bytes m))
    = _untracked_mem m.
Proof.
  intros trackers self bytes m R W. split.
  - intros p. unfold current_value, release.
    destruct (Z.eq_dec bytes 0) as [->|N].
    + change (neg64 0) with 0. rewrite !consume_zero. now split.
    + assert (N' : neg64 bytes <> 0) by (intros E; now apply neg64_zero in E).
      rewrite !consume_consumption by assumption. split.
      * apply iter_add64_cancel, W.
      * apply iter_add64_cancel_neg, W.
  - unfold release. now rewrite !consume_untracked_mem.
Qed.

(** X1 at a concrete input: 700 consumed and released on the instance
    tracker, from the counters after [try_consume(600)]. *)
Lemma consume_release_round_trip_witness :
  (in_range 700 /\ counters_ok scenario_after_600) /\
  map (fun p => current_value p
                  (release scenario_trackers INSTANCE 700
                     (consume scenario_trackers INSTANCE 700
                              scenario_after_600)))
      [ROOT; QUERY; INSTANCE]
  = map (fun p => current_value p scenario_after_600) [ROOT; QUERY; INSTANCE].
Proof.
  assert (R : in_range 700) by (unfold in_range, min_value, max_value; lia).
  assert (W : counters_ok scenario_after_600).
  { intros p. unfold in_range, min_value, max_value.
    destruct p as [|[|[|p]]]; vm_compute; repeat split; discriminate. }
  split; [split; assumption|].
  destruct (consume_release_round_trip scenario_trackers INSTANCE 700
              scenario_after_600 R W) as [H _].
  cbn [map]. now rewrite !(proj1 (H _)).
Defined.

(** X2.  Two [consume] calls, on the same tracker or on two trackers that
    share ancestors, leave the same consumption counters and accumulators
    whichever is made first. *)
Theorem consume_calls_commute :
  forall trackers self1 bytes1 self2 bytes2 m,
    (forall p,
        current_value p (consume trackers self1 bytes1
                                 (consume trackers self2 bytes2 m))
        = current_value p (consume trackers self2 bytes2
                                   (consume trackers self1 bytes1 m))) /\
    _untracked_mem (consume trackers self1 bytes1
                            (consume trackers self2 bytes2 m))
    = _untracked_mem (consume trackers self2 bytes2
                              (consume trackers self1 bytes1 m)).
Proof.
  intros trackers self1 bytes1 self2 bytes2 m. split.
  - intros p. unfold current_value.
    destruct (Z.eq_dec bytes1 0) as [->|N1]; [now rewrite !consume_zero|].
    destruct (Z.eq_dec bytes2 0) as [->|N2]; [now rewrite !consume_zero|].
    rewrite !consume_consumption by assumption.
    apply iter_add64_comm.
  - now rewrite !consume_untracked_mem.
Qed.

(** ** Revisions below the flush threshold, and transfers *)

Section RevisionFacts.

Variable trackers : ptr -> MemTrackerLimiter.
Variable min_size : Z.

(** A revision that leaves the accumulator below the threshold changes the
    accumulator of its tracker and nothing else. *)
Lemma cache_consume_local_below self bytes m :
  in_range (_untracked_mem m self) ->
  Z.abs (add64 (_untracked_mem m self) bytes) < min_size ->
  _consumption (cache_consume_local trackers min_size self bytes m)
  = _consumption m /\
  forall p,
    _untracked_mem (cache_consume_local trackers min_size self bytes m) p
    = if Nat.eqb p self then add64 (_untracked_mem m self) bytes
      else _untracked_mem m p.
Proof.
  intros R B. unfold cache_consume_local.
  destruct (bytes =? 0) eqn:Z0.
  - apply Z.eqb_eq in Z0; subst. split; [reflexivity|].
    intros p. destruct (Nat.eqb p self) eqn:E; [|reflexivity].
    apply Nat.eqb_eq in E; subst.
    unfold add64. rewrite Z.add_0_r. now rewrite wrap64_id.
  - unfold add_untracked_mem, set_untracked_mem. cbn [_untracked_mem].
    rewrite !upd_eq.
    assert (G : (abs64 (add64 (_untracked_mem m self) bytes) >=? min_size)
                = false).
    { rewrite Z.geb_leb. apply Z.leb_gt.
      pose proof (abs64_le_abs _ (add64_in_range (_untracked_mem m self) bytes)).
      lia. }
    rewrite G. cbn [negb Z.eqb]. split; reflexivity.
Qed.

Lemma stays_below_run self calls :
  forall m,
    in_range (_untracked_mem m self) ->
    stays_below min_size (_untracked_mem m self) calls ->
    let m' := run_calls trackers min_size
                        (map (CacheConsumeLocal self) calls) m in
    _consumption m' = _consumption m /\
    forall p, _untracked_mem m' p
              = if Nat.eqb p self
                then running_total (_untracked_mem m self) calls
                else _untracked_mem m p.
Proof.
  unfold run_calls, running_total.
  induction calls as [|b l IH]; intros m R S.
  - cbn. split; [reflexivity|]. intros p. now destruct (Nat.eqb_spec p self) as [->|].
  - destruct S as [B S].
    destruct (cache_consume_local_below self b m R B) as [Hc Hu].
    cbn [map fold_left run_call].
    pose proof (Hu self) as Hs. rewrite Nat.eqb_refl in Hs.
    specialize (IH (cache_consume_local trackers min_size self b m)).
    rewrite Hs in IH.
    destruct (IH (add64_in_range _ _) S) as [Ic Iu].
    split; [now rewrite Ic|].
    intros p. rewrite Iu. destruct (Nat.eqb p self) eqn:E; [reflexivity|].
    rewrite Hu, E. reflexivity.
Qed.

End RevisionFacts.

(** X3.  Revisions that keep the accumulator of a tracker below the flush
    threshold are invisible: after any sequence of [cache_consume_local]
    calls on the tracker during which the accumulator stays below the
    threshold in magnitude, no consumption counter has changed, no other
    tracker's accumulator has changed, and the accumulator holds its first
    value plus all the bytes passed, in [int64_t] arithmetic. *)
Theorem cache_consume_local_below_threshold :
  forall trackers min_size self calls m,
    in_range (_untracked_mem m self) ->
    stays_below min_size (_untracked_mem m self) calls ->
    let m' := run_calls trackers min_size
                        (map (CacheConsumeLocal self) calls) m in
    (forall p, current_value p m' = current_value p m) /\
    _untracked_mem m' self = running_total (_untracked_mem m self) calls /\
    (forall p, p <> self -> _untracked_mem m' p = _untracked_mem m p).
Proof.
  intros trackers min_size self calls m R S m'.
  destruct (stays_below_run trackers min_size self calls m R S) as [Hc Hu].
  fold m' in Hc, Hu. split; [|split].
  - intros p. unfold current_value. now rewrite Hc.
  - rewrite Hu. now rewrite Nat.eqb_refl.
  - intros p N. rewrite Hu. now apply Nat.eqb_neq in N as ->.
Qed.

(** X3 at a concrete input: revisions of 600000, -300000 and 700000 on the
    instance tracker with a threshold of 1 MB. *)
Lemma cache_consume_local_below_threshold_witness :
  (in_range (_untracked_mem zero_counters INSTANCE) /\
   stays_below one_megabyte (_untracked_mem zero_counters INSTANCE)
               [600000; -300000; 700000]) /\
  _untracked_mem
    (run_calls scenario_trackers one_megabyte
       (map (CacheConsumeLocal INSTANCE) [600000; -300000; 700000])
       zero_counters) INSTANCE
  = 1000000.
Proof.
  assert (R : in_range (_untracked_mem zero_counters INSTANCE)).
  { unfold in_range, min_value, max_value. cbn. lia. }
  assert (S : stays_below one_megabyte (_untracked_mem zero_counters INSTANCE)
                          [600000; -300000; 700000]).
  { repeat split. }
  split; [split; assumption|].
  rewrite (proj1 (proj2 (cache_consume_local_below_threshold
                           scenario_trackers one_megabyte INSTANCE
                           [600000; -300000; 700000] zero_counters R S))).
  reflexivity.
Defined.

(** X4.  [transfer_to] never changes the consumption counter of a tracker
    labelled "Process", whatever the two trackers (the process tracker
    itself included), the size, the flush threshold and the accumulators. *)
Theorem transfer_to_spares_process :
  forall trackers min_size self size dst m p,
    _label (trackers p) = "Process"%string ->
    current_value p (transfer_to trackers min_size self size dst m)
    = current_value p m.
Proof.
  intros trackers min_size self size dst m p L.
  unfold transfer_to, current_value.
  now rewrite !cache_consume_local_process.
Qed.

(** X4 at a concrete input: 2 MB moved from the instance tracker to the
    root, both accumulators flushing. *)
Lemma transfer_to_spares_process_witness :
  _label (scenario_trackers ROOT) = "Process"%string /\
  current_value ROOT
    (transfer_to scenario_trackers one_megabyte INSTANCE 2097152 ROOT
                 scenario_after_600)
  = 600.
Proof.
  split; [reflexivity|].
  rewrite (transfer_to_spares_process scenario_trackers one_megabyte
             INSTANCE 2097152 ROOT scenario_after_600 ROOT eq_refl).
  reflexivity.
Defined.

(** X5.  A transfer that flushes neither accumulator only moves [size] from
    one accumulator to the other: no consumption counter changes, the source
    accumulator loses [size], the destination accumulator gains it, their
    sum is as before, and no other accumulator changes.  A transfer from a
    tracker to itself that does not flush changes nothing at all. *)
Theorem transfer_to_without_flush :
  forall trackers min_size self size dst m,
    counters_ok m ->
    Z.abs (add64 (_untracked_mem m self) (neg64 size)) < min_size ->
    let m' := transfer_to trackers min_size self size dst m in
    (self <> dst ->
     Z.abs (add64 (_untracked_mem m dst) size) < min_size ->
     (forall p, current_value p m' = current_value p m) /\
     _untracked_mem m' self = add64 (_untracked_mem m self) (neg64 size) /\
     _untracked_mem m' dst = add64 (_untracked_mem m dst) size /\
     wrap64 (_untracked_mem m' self + _untracked_mem m' dst)
     = wrap64 (_untracked_mem m self + _untracked_mem m dst) /\
     (forall p, p <> self -> p <> dst ->
                _untracked_mem m' p = _untracked_mem m p)) /\
    (self = dst ->
     Z.abs (_untracked_mem m self) < min_size ->
     (forall p, current_value p m' = current_value p m) /\
     (forall p, _untracked_mem m' p = _untracked_mem m p)).
Proof.
  intros trackers min_size self size dst m W B m'. subst m'.
  unfold transfer_to, current_value.
  destruct (cache_consume_local_below trackers min_size self (neg64 size) m
              (proj2 (W self)) B) as [Hc Hu].
  set (m1 := cache_consume_local trackers min_size self (neg64 size) m) in *.
  split.
  - intros N Bd.
    assert (Ed : _untracked_mem m1 dst = _untracked_mem m dst).
    { rewrite Hu. apply not_eq_sym in N. now apply Nat.eqb_neq in N as ->. }
    assert (Rd : in_range (_untracked_mem m1 dst))
      by (rewrite Ed; apply W).
    rewrite <- Ed in Bd.
    destruct (cache_consume_local_below trackers min_size dst size m1 Rd Bd)
      as [Hc' Hu'].
    assert (Hs : _untracked_mem (cache_consume_local trackers min_size dst size m1) self
                 = add64 (_untracked_mem m self) (neg64 size)).
    { rewrite Hu'. apply Nat.eqb_neq in N as ->. rewrite Hu.
      now rewrite Nat.eqb_refl. }
    assert (Hd : _untracked_mem (cache_consume_local trackers min_size dst size m1) dst
                 = add64 (_untracked_mem m dst) size).
    { rewrite Hu', Nat.eqb_refl, Ed. reflexivity. }
    split; [intros p; now rewrite Hc', Hc|].
    split; [exact Hs|]. split; [exact Hd|]. split.
    + rewrite Hs, Hd. unfold add64, neg64.
      rewrite wrap64_add_l, wrap64_add_r.
      rewrite (Z.add_comm (_untracked_mem m self)), <- Z.add_assoc.
      rewrite wrap64_add_l. f_equal. lia.
    + intros p Ns Nd. rewrite Hu'. apply Nat.eqb_neq in Nd as ->.
      rewrite Hu. now apply Nat.eqb_neq in Ns as ->.
  - intros <- Ba.
    assert (Es : _untracked_mem m1 self
                 = add64 (_untracked_mem m self) (neg64 size)).
    { rewrite Hu. now rewrite Nat.eqb_refl. }
    assert (Back : add64 (_untracked_mem m1 self) size = _untracked_mem m self).
    { rewrite Es. apply add64_cancel_neg, W. }
    assert (Rs : in_range (_untracked_mem m1 self))
      by (rewrite Es; apply add64_in_range).
    assert (Bs : Z.abs (add64 (_untracked_mem m1 self) size) < min_size)
      by now rewrite Back.
    destruct (cache_consume_local_below trackers min_size self size m1 Rs Bs)
      as [Hc' Hu'].
    split; [intros p; now rewrite Hc', Hc|].
    intros p. rewrite Hu'. destruct (Nat.eqb p self) eqn:E.
    + apply Nat.eqb_eq in E; subst. exact Back.
    + rewrite Hu, E. reflexivity.
Qed.

(** X5 at a concrete input: 1000 bytes moved from the instance tracker to
    the query tracker with a threshold of 1 MB. *)
Lemma transfer_to_without_flush_witness :
  (counters_ok zero_counters /\
   Z.abs (add64 (_untracked_mem zero_counters INSTANCE) (neg64 1000))
   < one_megabyte) /\
  map (_untracked_mem
         (transfer_to scenario_trackers one_megabyte INSTANCE 1000 QUERY
                      zero_counters))
      [ROOT; QUERY; INSTANCE]
  = [0; 1000; -1000].
Proof.
  assert (W : counters_ok zero_counters).
  { intros p. unfold in_range, min_value, max_value. cbn. lia. }
  assert (B : Z.abs (add64 (_untracked_mem zero_counters INSTANCE) (neg64 1000))
              < one_megabyte) by reflexivity.
  split; [split; assumption|].
  destruct (proj1 (transfer_to_without_flush scenario_trackers one_megabyte
                     INSTANCE 1000 QUERY zero_counters W B)
                  ltac:(discriminate) eq_refl)
    as (_ & Hs & Hd & _ & Ho).
  cbn [map]. rewrite Hs, Hd, (Ho ROOT) by discriminate. reflexivity.
Defined.

(** ** Limits after a call of try_consume *)

Section ExceededFacts.

Variable trackers : ptr -> MemTrackerLimiter.

Lemma any_limit_exceeded_loop_false limited m :
  any_limit_exceeded_loop trackers limited m = false <->
  forall t, In t limited -> limit_exceeded trackers t m = false.
Proof.
  induction limited as [|t l IH]; cbn [any_limit_exceeded_loop].
  - split; [intros _ t []|reflexivity].
  - destruct (limit_exceeded trackers t m) eqn:E.
    + split; [discriminate|]. intros H. rewrite <- E. apply H. now left.
    + rewrite IH. split.
      * intros H x [<-|I]; [exact E|now apply H].
      * intros H x I. apply H. now right.
Qed.

Lemma any_limit_exceeded_loop_ext limited m m' :
  (forall p, _consumption m' p = _consumption m p) ->
  any_limit_exceeded_loop trackers limited m'
  = any_limit_exceeded_loop trackers limited m.
Proof.
  intros H. induction limited as [|t l IH]; [reflexivity|].
  cbn [any_limit_exceeded_loop]. unfold limit_exceeded, current_value.
  now rewrite H, IH.
Qed.

End ExceededFacts.

(** X6.  [try_consume] never leaves a limit exceeded.  Let the chain of a
    tracker hold no tracker twice, let every tracker of its
    [_limited_ancestors] be one of the chain that is not labelled "Process"
    (the comment of the field), and let the GC protocol hand the counters
    back unchanged.  After a call of [try_consume(bytes)], [bytes > 0], that
    answers OK, the counter of every tracker of [_limited_ancestors] with a
    limit is below the limit and [any_limit_exceeded] is false, whatever it
    was before; after a call that fails, [any_limit_exceeded] answers as
    before the call. *)
Theorem try_consume_keeps_limits :
  forall trackers vm_rss mem_limit try_gc_memory fuel self bytes m st m',
    (forall t b x, snd (try_gc_memory t b x) = x) ->
    counters_ok m ->
    NoDup (_all_ancestors (trackers self)) ->
    (forall t, In t (_limited_ancestors (trackers self)) ->
               In t (_all_ancestors (trackers self)) /\
               label trackers t <> "Process"%string) ->
    0 < bytes ->
    try_consume trackers vm_rss mem_limit try_gc_memory fuel self bytes m
    = Some (st, m') ->
    (ok st = true ->
     (forall t, In t (_limited_ancestors (trackers self)) ->
                0 <= limit trackers t ->
                current_value t m' < limit trackers t) /\
     any_limit_exceeded trackers self m' = false) /\
    (ok st = false ->
     any_limit_exceeded trackers self m' = any_limit_exceeded trackers self m) /\
    (any_limit_exceeded trackers self m = false ->
     any_limit_exceeded trackers self m' = false).
Proof.
  intros trackers vm_rss mem_limit gc fuel self bytes m st m' F W D Cov Hb E.
  assert (K : forall t b x p,
             _consumption (snd (gc t b x)) p = _consumption x p)
    by (intros t b x p; now rewrite F).
  assert (Below : ok st = true ->
            forall t, In t (_limited_ancestors (trackers self)) ->
                      0 <= limit trackers t ->
                      current_value t m' < limit trackers t).
  { intros Ks t I L. apply ok_true in Ks; subst st.
    unfold try_consume in E. positive_request bytes.
    destruct (check_sys_mem_info vm_rss mem_limit bytes); [|discriminate].
    destruct (Cov t I) as [Ic NP].
    destruct (In_nth _ _ self Ic) as (i & Hi & Ht).
    pose proof (walk_success_below trackers gc K fuel self bytes _ m m'
                  D (le_n _) E i Hi) as B.
    cbn zeta in B. rewrite Ht in B. specialize (B L NP).
    unfold current_value in *.
    rewrite (walk_success_consumption trackers gc K _ _ _ _ _ _ E).
    now rewrite (proj1 (NoDup_count_occ' Nat.eq_dec _) D t Ic). }
  assert (Clear : ok st = true -> any_limit_exceeded trackers self m' = false).
  { intros Ks. unfold any_limit_exceeded.
    apply any_limit_exceeded_loop_false. intros t I.
    unfold limit_exceeded.
    destruct (limit trackers t >=? 0) eqn:L; [|reflexivity].
    rewrite Z.geb_leb in L. apply Z.leb_le in L.
    pose proof (Below Ks t I L) as B. cbn [andb]. apply Z.ltb_ge. lia. }
  assert (Same : ok st = false ->
            any_limit_exceeded trackers self m'
            = any_limit_exceeded trackers self m).
  { intros Kf. unfold any_limit_exceeded.
    apply any_limit_exceeded_loop_ext.
    apply (try_consume_failure_restores trackers vm_rss mem_limit gc F
             fuel self bytes m st m' W Hb E Kf). }
  split; [intros Ks; split; [now apply Below|now apply Clear]|].
  split; [exact Same|].
  intros A. destruct (ok st) eqn:Ks.
  - now apply Clear.
  - now rewrite Same.
Qed.

(** X6 at a concrete input: [try_consume(600)] on the instance tracker of
    root -> query (limit 1000) -> instance. *)
Lemma try_consume_keeps_limits_witness :
  ((forall t b x,
       snd (try_gc_memory scenario_trackers no_gc_functions t b x) = x) /\
   counters_ok zero_counters /\
   NoDup (_all_ancestors (scenario_trackers INSTANCE)) /\
   (forall t, In t (_limited_ancestors (scenario_trackers INSTANCE)) ->
              In t (_all_ancestors (scenario_trackers INSTANCE)) /\
              label scenario_trackers t <> "Process"%string) /\
   0 < 600 /\
   scenario_try_consume no_gc_functions 1 INSTANCE 600 zero_counters
   = Some (OK, scenario_after_600)) /\
  any_limit_exceeded scenario_trackers INSTANCE scenario_after_600 = false.
Proof.
  assert (F : forall t b x,
             snd (try_gc_memory scenario_trackers no_gc_functions t b x) = x)
    by exact (try_gc_memory_frees_nothing scenario_trackers no_gc_functions
                no_gc_functions_free_nothing).
  assert (W : counters_ok zero_counters).
  { intros p. unfold in_range, min_value, max_value. cbn. lia. }
  assert (D : NoDup (_all_ancestors (scenario_trackers INSTANCE))).
  { repeat constructor; cbn; intuition discriminate. }
  assert (Cov : forall t,
             In t (_limited_ancestors (scenario_trackers INSTANCE)) ->
             In t (_all_ancestors (scenario_trackers INSTANCE)) /\
             label scenario_trackers t <> "Process"%string).
  { intros t [<-|[]]. split; [right; now left|discriminate]. }
  assert (E : scenario_try_consume no_gc_functions 1 INSTANCE 600 zero_counters
              = Some (OK, scenario_after_600)) by reflexivity.
  split; [repeat (split; [assumption|]); split; [lia|exact E]|].
  exact (proj2 (proj1 (try_consume_keeps_limits
                         scenario_trackers 0 (2 ^ 40)
                         (try_gc_memory scenario_trackers no_gc_functions)
                         1 INSTANCE 600 zero_counters OK scenario_after_600
                         F W D Cov ltac:(lia) E) eq_refl)).
Defined.

(** ** check_limit before try_consume *)

(** X7.  [check_limit] is a faithful dry run of [try_consume].  Let the
    chain of a tracker hold no tracker twice, let [_limited_ancestors] hold
    every tracker of the chain that has a limit and is not labelled
    "Process", and let the GC protocol leave the consumption counters as
    they are.  If [check_limit(bytes)], [bytes > 0], answers OK, then
    [try_consume(bytes)] on counters with the same consumption values (those
    before or after the check) answers OK at the first iteration of every
    loop, asks for no GC, and adds [bytes] at every tracker of the chain,
    root first. *)
Theorem check_limit_ok_then_try_consume :
  forall trackers vm_rss mem_limit try_gc_memory fuel self bytes m m',
    (forall t b x p,
        _consumption (snd (try_gc_memory t b x)) p = _consumption x p) ->
    NoDup (_all_ancestors (trackers self)) ->
    (forall t, In t (_all_ancestors (trackers self)) ->
               0 <= limit trackers t ->
               label trackers t <> "Process"%string ->
               In t (_limited_ancestors (trackers self))) ->
    0 < bytes ->
    check_limit trackers vm_rss mem_limit try_gc_memory fuel self bytes m
    = Some (OK, m') ->
    forall fuel' x,
      (forall p, current_value p x = current_value p m) ->
      try_consume trackers vm_rss mem_limit try_gc_memory (S fuel') self bytes x
      = Some (OK, add_each (rev (_all_ancestors (trackers self))) bytes x).
Proof.
  intros trackers vm_rss mem_limit gc fuel self bytes m m' K D Cov Hb E
         fuel' x Hx.
  unfold check_limit in E. unfold try_consume.
  positive_request bytes.
  destruct (check_sys_mem_info vm_rss mem_limit bytes); [|discriminate].
  rewrite <- (firstn_all (_all_ancestors (trackers self))) at 2.
  apply walk_all_below; [exact D|apply le_n|].
  intros i Hi tracker L NP.
  assert (I : In tracker (_limited_ancestors (trackers self))).
  { apply Cov; [now apply nth_In|exact L|exact NP]. }
  destruct (In_nth _ _ self I) as (j & Hj & Ht).
  pose proof (check_limit_walk_ok_room trackers gc K fuel self bytes _ m m'
                E j Hj) as B.
  cbn zeta in B. rewrite Ht in B. now rewrite Hx.
Qed.

(** X7 at a concrete input: after [try_consume(600)], [check_limit(100)] on
    the instance tracker answers OK, and [try_consume(100)] then brings the
    three counters to 700. *)
Lemma check_limit_ok_then_try_consume_witness :
  ((forall t b x p,
       _consumption
         (snd (try_gc_memory scenario_trackers no_gc_functions t b x)) p
       = _consumption x p) /\
   NoDup (_all_ancestors (scenario_trackers INSTANCE)) /\
   (forall t, In t (_all_ancestors (scenario_trackers INSTANCE)) ->
              0 <= limit scenario_trackers t ->
              label scenario_trackers t <> "Process"%string ->
              In t (_limited_ancestors (scenario_trackers INSTANCE))) /\
   0 < 100 /\
   check_limit scenario_trackers 0 (2 ^ 40)
               (try_gc_memory scenario_trackers no_gc_functions)
               1 INSTANCE 100 scenario_after_600
   = Some (OK, scenario_after_600)) /\
  option_map
    (fun r => (fst r, map (fun p => current_value p (snd r))
                          [ROOT; QUERY; INSTANCE]))
    (scenario_try_consume no_gc_functions 1 INSTANCE 100 scenario_after_600)
  = Some (OK, [700; 700; 700]).
Proof.
  assert (D : NoDup (_all_ancestors (scenario_trackers INSTANCE))).
  { repeat constructor; cbn; intuition discriminate. }
  assert (Cov : forall t,
             In t (_all_ancestors (scenario_trackers INSTANCE)) ->
             0 <= limit scenario_trackers t ->
             label scenario_trackers t <> "Process"%string ->
             In t (_limited_ancestors (scenario_trackers INSTANCE))).
  { intros t [<-|[<-|[<-|[]]]] L NP.
    - unfold limit in L. cbn in L. lia.
    - now left.
    - now contradiction NP. }
  assert (E : check_limit scenario_trackers 0 (2 ^ 40)
                (try_gc_memory scenario_trackers no_gc_functions)
                1 INSTANCE 100 scenario_after_600
              = Some (OK, scenario_after_600)) by reflexivity.
  split.
  { split; [exact (no_gc_keeps_consumption scenario_trackers)|].
    split; [exact D|]. split; [exact Cov|]. split; [lia|exact E]. }
  unfold scenario_try_consume.
  rewrite (check_limit_ok_then_try_consume
             scenario_trackers 0 (2 ^ 40)
             (try_gc_memory scenario_trackers no_gc_functions)
             1 INSTANCE 100 scenario_after_600 scenario_after_600
             (no_gc_keeps_consumption scenario_trackers) D Cov
             ltac:(lia) E 0%nat scenario_after_600 (fun p => eq_refl)).
  reflexivity.
Defined.

(** ** Loops that wait for the GC protocol *)

Section NoReturn.

Variable trackers : ptr -> MemTrackerLimiter.
Variable try_gc_memory : ptr -> Z -> Counters -> Status * Counters.

(** A GC protocol that always answers OK and never changes a consumption
    counter. *)
Hypothesis says_ok : forall t b x, fst (try_gc_memory t b x) = OK.
Hypothesis keeps_consumption :
  forall t b x p, _consumption (snd (try_gc_memory t b x)) p = _consumption x p.

Local Abbreviation chain self := (_all_ancestors (trackers self)).
Local Abbreviation limited self := (_limited_ancestors (trackers self)).

Lemma retry_never_fails fuel t b m st m' :
  try_consume_retry trackers try_gc_memory fuel t b m = Some (st, m') ->
  st = OK.
Proof.
  intros E. destruct (ok st) eqn:K; [now apply ok_true|].
  destruct (retry_failure _ _ _ _ _ _ _ _ E K) as (n & _ & G).
  pose proof (says_ok t b (gc_rounds try_gc_memory t b n m)) as S.
  rewrite G in S. cbn [fst] in S. subst st. discriminate.
Qed.

Lemma retry_no_return fuel t b m :
  limit trackers t <= add64 (current_value t m) b ->
  try_consume_retry trackers try_gc_memory fuel t b m = None.
Proof.
  revert m. induction fuel as [|fuel IH]; intros m C; [reflexivity|].
  cbn [try_consume_retry]. unfold try_add.
  pose proof C as C'. apply Z.ltb_ge in C'. rewrite C'.
  pose proof (says_ok t b m) as S.
  pose proof (keeps_consumption t b m t) as Kc.
  destruct (try_gc_memory t b m) as [st m1]. cbn [fst snd] in S, Kc.
  subst st. cbn [ok]. apply IH. unfold current_value. now rewrite Kc.
Qed.

(** The walk of [try_consume] never gets past a limited tracker without
    room. *)
Lemma walk_no_return fuel self bytes i k :
  forall m,
    NoDup (chain self) ->
    (i < k <= List.length (chain self))%nat ->
    0 <= limit trackers (nth i (chain self) self) ->
    label trackers (nth i (chain self) self) <> "Process"%string ->
    limit trackers (nth i (chain self) self)
    <= add64 (current_value (nth i (chain self) self) m) bytes ->
    try_consume_walk trackers try_gc_memory fuel self bytes k m = None.
Proof.
  induction k as [|j IH]; intros m D Hi L NP C; [lia|].
  cbn [try_consume_walk].
  set (t := nth j (chain self) self).
  destruct (Nat.eq_dec i j) as [->|N].
  - fold t in L, NP, C.
    assert (X : (limit trackers t <? 0)
                || String.eqb (label trackers t) "Process" = false).
    { apply orb_false_iff. split; [now apply Z.ltb_ge|now apply String.eqb_neq]. }
    rewrite X. now rewrite retry_no_return.
  - assert (Hne : nth i (chain self) self <> t).
    { intros Heq. apply (proj1 (NoDup_nth (chain self) self) D) in Heq; lia. }
    destruct ((limit trackers t <? 0) || String.eqb (label trackers t) "Process").
    + apply IH; try assumption; [lia|].
      unfold current_value. now rewrite add_consumption_neq.
    + destruct (try_consume_retry trackers try_gc_memory fuel t bytes m)
        as [[st m1]|] eqn:R; [|reflexivity].
      pose proof (retry_never_fails _ _ _ _ _ _ R) as ->. cbn [ok].
      destruct (retry_success _ _ _ _ _ _ _ R) as (n & _ & ->).
      apply IH; try assumption; [lia|].
      unfold current_value.
      rewrite add_consumption_neq by exact Hne.
      now rewrite (rounds_consumption _ keeps_consumption).
Qed.

Lemma check_limit_retry_no_return fuel t b m :
  limit trackers t <= add64 (current_value t m) b ->
  check_limit_retry trackers try_gc_memory fuel t b m = None.
Proof.
  revert m. induction fuel as [|fuel IH]; intros m C; [reflexivity|].
  cbn [check_limit_retry].
  pose proof C as C'. apply Z.ltb_ge in C'. rewrite C'.
  pose proof (says_ok t b m) as S.
  pose proof (keeps_consumption t b m t) as Kc.
  destruct (try_gc_memory t b m) as [st m1]. cbn [fst snd] in S, Kc.
  subst st. cbn [ok]. apply IH. unfold current_value. now rewrite Kc.
Qed.

(** Nor does the walk of [check_limit]. *)
Lemma check_limit_walk_no_return fuel self bytes i k :
  forall m,
    (i < k)%nat ->
    limit trackers (nth i (limited self) self)
    <= add64 (current_value (nth i (limited self) self) m) bytes ->
    check_limit_walk trackers try_gc_memory fuel self bytes k m = None.
Proof.
  induction k as [|j IH]; intros m Hi C; [lia|].
  cbn [check_limit_walk].
  set (t := nth j (limited self) self).
  destruct (Nat.eq_dec i j) as [->|N].
  - fold t in C. now rewrite check_limit_retry_no_return.
  - destruct (check_limit_retry trackers try_gc_memory fuel t bytes m)
      as [[st m1]|] eqn:R; [|reflexivity].
    destruct (check_limit_retry_result _ _ _ _ _ _ _ _ R) as (n & _ & [H|H]).
    + destruct H as (-> & -> & _). cbn [ok].
      apply IH; [lia|]. unfold current_value.
      now rewrite (rounds_consumption _ keeps_consumption).
    + destruct H as (_ & _ & G & Kf).
      unfold gc_stop in G. cbn [fst snd] in G.
      pose proof (says_ok t bytes (gc_rounds try_gc_memory t bytes n m)) as S.
      rewrite G in S. cbn [fst] in S. subst st. discriminate.
Qed.

End NoReturn.

(** X8.  The loop of [try_consume] at a limited tracker has two exits only:
    [try_add] succeeds or [try_gc_memory] fails.  So when a tracker of the
    chain (held once) with a limit and another label than "Process" has no
    room for the bytes, and the GC protocol answers OK every time without
    changing a consumption counter, [try_consume(bytes)] passes
    [check_sys_mem_info] and then does not return, however many iterations
    it is given. *)
Theorem try_consume_waits_for_gc :
  forall trackers vm_rss mem_limit try_gc_memory self bytes m tracker,
    (forall t b x, fst (try_gc_memory t b x) = OK) ->
    (forall t b x p,
        _consumption (snd (try_gc_memory t b x)) p = _consumption x p) ->
    NoDup (_all_ancestors (trackers self)) ->
    In tracker (_all_ancestors (trackers self)) ->
    0 <= limit trackers tracker ->
    label trackers tracker <> "Process"%string ->
    0 < bytes ->
    check_sys_mem_info vm_rss mem_limit bytes = OK ->
    limit trackers tracker <= add64 (current_value tracker m) bytes ->
    forall fuel,
      try_consume trackers vm_rss mem_limit try_gc_memory fuel self bytes m
      = None.
Proof.
  intros trackers vm_rss mem_limit gc self bytes m tracker S K D I L NP Hb G C
         fuel.
  unfold try_consume. positive_request bytes. rewrite G.
  destruct (In_nth _ _ self I) as (i & Hi & Ht).
  apply (walk_no_return trackers gc S K fuel self bytes i);
    rewrite ?Ht; try assumption. lia.
Qed.

(** X8 at a concrete input: with 600 bytes on the query tracker (limit
    1000), [try_consume(500)] on the instance tracker under a GC protocol
    that always answers OK. *)
Lemma try_consume_waits_for_gc_witness :
  ((forall t b x, fst (gc_says_ok t b x) = OK) /\
   (forall t b x p,
       _consumption (snd (gc_says_ok t b x)) p = _consumption x p) /\
   NoDup (_all_ancestors (scenario_trackers INSTANCE)) /\
   In QUERY (_all_ancestors (scenario_trackers INSTANCE)) /\
   0 <= limit scenario_trackers QUERY /\
   label scenario_trackers QUERY <> "Process"%string /\
   0 < 500 /\
   check_sys_mem_info 0 (2 ^ 40) 500 = OK /\
   limit scenario_trackers QUERY
   <= add64 (current_value QUERY scenario_after_600) 500) /\
  try_consume scenario_trackers 0 (2 ^ 40) gc_says_ok 100 INSTANCE 500
              scenario_after_600
  = None.
Proof.
  assert (D : NoDup (_all_ancestors (scenario_trackers INSTANCE))).
  { repeat constructor; cbn; intuition discriminate. }
  assert (I : In QUERY (_all_ancestors (scenario_trackers INSTANCE)))
    by (right; now left).
  assert (L : 0 <= limit scenario_trackers QUERY) by (cbn; lia).
  assert (NP : label scenario_trackers QUERY <> "Process"%string)
    by discriminate.
  assert (C : limit scenario_trackers QUERY
              <= add64 (current_value QUERY scenario_after_600) 500)
    by (vm_compute; discriminate).
  split.
  { split; [reflexivity|]. split; [reflexivity|]. split; [exact D|].
    split; [exact I|]. split; [exact L|]. split; [exact NP|].
    split; [lia|]. split; [reflexivity|exact C]. }
  exact (try_consume_waits_for_gc
           scenario_trackers 0 (2 ^ 40) gc_says_ok INSTANCE 500
           scenario_after_600 QUERY
           (fun _ _ _ => eq_refl) (fun _ _ _ _ => eq_refl)
           D I L NP ltac:(lia) eq_refl C 100%nat).
Defined.

(** X9.  The loop of [check_limit] has two exits only: room for the bytes or
    a failure of [try_gc_memory].  When a tracker of [_limited_ancestors]
    has no room for the bytes and the GC protocol answers OK every time
    without changing a consumption counter, [check_limit(bytes)] passes
    [check_sys_mem_info] and then does not return, however many iterations
    it is given. *)
Theorem check_limit_waits_for_gc :
  forall trackers vm_rss mem_limit try_gc_memory self bytes m tracker,
    (forall t b x, fst (try_gc_memory t b x) = OK) ->
    (forall t b x p,
        _consumption (snd (try_gc_memory t b x)) p = _consumption x p) ->
    In tracker (_limited_ancestors (trackers self)) ->
    0 < bytes ->
    check_sys_mem_info vm_rss mem_limit bytes = OK ->
    limit trackers tracker <= add64 (current_value tracker m) bytes ->
    forall fuel,
      check_limit trackers vm_rss mem_limit try_gc_memory fuel self bytes m
      = None.
Proof.
  intros trackers vm_rss mem_limit gc self bytes m tracker S K I Hb G C fuel.
  unfold check_limit. positive_request bytes. rewrite G.
  destruct (In_nth _ _ self I) as (i & Hi & Ht).
  apply (check_limit_walk_no_return trackers gc S K fuel self bytes i);
    rewrite ?Ht; assumption.
Qed.

(** X9 at a concrete input: with 600 bytes on the query tracker (limit
    1000), [check_limit(500)] on the instance tracker under a GC protocol
    that always answers OK. *)
Lemma check_limit_waits_for_gc_witness :
  ((forall t b x, fst (gc_says_ok t b x) = OK) /\
   (forall t b x p,
       _consumption (snd (gc_says_ok t b x)) p = _consumption x p) /\
   In QUERY (_limited_ancestors (scenario_trackers INSTANCE)) /\
   0 < 500 /\
   check_sys_mem_info 0 (2 ^ 40) 500 = OK /\
   limit scenario_trackers QUERY
   <= add64 (current_value QUERY scenario_after_600) 500) /\
  check_limit scenario_trackers 0 (2 ^ 40) gc_says_ok 100 INSTANCE 500
              scenario_after_600
  = None.
Proof.
  assert (I : In QUERY (_limited_ancestors (scenario_trackers INSTANCE)))
    by now left.
  assert (C : limit scenario_trackers QUERY
              <= add64 (current_value QUERY scenario_after_600) 500)
    by (vm_compute; discriminate).
  split.
  { split; [reflexivity|]. split; [reflexivity|]. split; [exact I|].
    split; [lia|]. split; [reflexivity|exact C]. }
  exact (check_limit_waits_for_gc
           scenario_trackers 0 (2 ^ 40) gc_says_ok INSTANCE 500
           scenario_after_600 QUERY
           (fun _ _ _ => eq_refl) (fun _ _ _ _ => eq_refl)
           I ltac:(lia) eq_refl C 100%nat).
Defined.

(** ** update_limit *)

Section UpdateLimitFacts.

Variable trackers : ptr -> MemTrackerLimiter.
Variables (tracker : ptr) (new_limit : Z).

Lemma update_limit_chain self :
  _all_ancestors (update_limit trackers tracker new_limit self)
  = _all_ancestors (trackers self).
Proof. unfold update_limit. now destruct (Nat.eqb self tracker). Qed.

Lemma update_limit_label t :
  label (update_limit trackers tracker new_limit) t = label trackers t.
Proof. unfold label, update_limit. now destruct (Nat.eqb t tracker). Qed.

Lemma update_limit_limit t :
  limit (update_limit trackers tracker new_limit) t
  = if Nat.eqb t tracker then new_limit else limit trackers t.
Proof. unfold limit, update_limit. now destruct (Nat.eqb t tracker). Qed.

End UpdateLimitFacts.

(** X10.  Raising a limit takes no success away.  Let [update_limit] give a
    tracker that has a limit (the [DCHECK]) a limit that is not lower.  If
    [try_consume(bytes)], [bytes > 0], answered OK with the old limit, on a
    chain without repeats and with a GC protocol that leaves the
    consumption counters alone, then with the new limit it answers OK at the
    first iteration of every loop, asks for no GC, and leaves the same
    value in every consumption counter. *)
Theorem update_limit_raise_keeps_success :
  forall trackers vm_rss mem_limit try_gc_memory fuel self bytes m m'
         tracker new_limit,
    (forall t b x p,
        _consumption (snd (try_gc_memory t b x)) p = _consumption x p) ->
    NoDup (_all_ancestors (trackers self)) ->
    has_limit trackers tracker = true ->
    limit trackers tracker <= new_limit ->
    0 < bytes ->
    try_consume trackers vm_rss mem_limit try_gc_memory fuel self bytes m
    = Some (OK, m') ->
    forall fuel',
      try_consume (update_limit trackers tracker new_limit) vm_rss mem_limit
                  try_gc_memory (S fuel') self bytes m
      = Some (OK, add_each (rev (_all_ancestors (trackers self))) bytes m) /\
      forall p,
        current_value p
          (add_each (rev (_all_ancestors (trackers self))) bytes m)
        = current_value p m'.
Proof.
  intros trackers vm_rss mem_limit gc fuel self bytes m m' tracker new_limit
         K D HL Raise Hb E fuel'.
  unfold try_consume in *. positive_request bytes.
  destruct (check_sys_mem_info vm_rss mem_limit bytes); [|discriminate].
  split.
  - pose proof (walk_all_below (update_limit trackers tracker new_limit) gc
                  fuel' self bytes
                  (List.length (_all_ancestors (trackers self))) m) as H.
    rewrite !update_limit_chain in H. rewrite firstn_all in H.
    rewrite update_limit_chain. apply H; [exact D|apply le_n|].
    clear H. cbn zeta. intros i Hi L NP.
    set (t := nth i (_all_ancestors (trackers self)) self) in *.
    rewrite update_limit_label in NP. revert L.
    rewrite update_limit_limit.
    pose proof (walk_success_below trackers gc K fuel self bytes _ m m'
                  D (le_n _) E i Hi) as B.
    cbn zeta in B. fold t in B. specialize (fun L0 => B L0 NP).
    destruct (Nat.eqb t tracker) eqn:Et; intros L; [|now apply B].
    apply Nat.eqb_eq in Et. rewrite <- Et in HL, Raise.
    unfold has_limit in HL. rewrite Z.geb_leb in HL. apply Z.leb_le in HL.
    specialize (B HL). lia.
  - intros p. unfold current_value.
    rewrite (walk_success_consumption trackers gc K _ _ _ _ _ _ E).
    now rewrite add_each_consumption, count_occ_rev.
Qed.

(** X10 at a concrete input: the limit of the query tracker raised from
    1000 to 2000 before [try_consume(600)] on the instance tracker. *)
Lemma update_limit_raise_keeps_success_witness :
  ((forall t b x p,
       _consumption
         (snd (try_gc_memory scenario_trackers no_gc_functions t b x)) p
       = _consumption x p) /\
   NoDup (_all_ancestors (scenario_trackers INSTANCE)) /\
   has_limit scenario_trackers QUERY = true /\
   limit scenario_trackers QUERY <= 2000 /\
   0 < 600 /\
   scenario_try_consume no_gc_functions 1 INSTANCE 600 zero_counters
   = Some (OK, scenario_after_600)) /\
  try_consume (update_limit scenario_trackers QUERY 2000) 0 (2 ^ 40)
              (try_gc_memory scenario_trackers no_gc_functions)
              1 INSTANCE 600 zero_counters
  = Some (OK, add_each [ROOT; QUERY; INSTANCE] 600 zero_counters).
Proof.
  assert (D : NoDup (_all_ancestors (scenario_trackers INSTANCE))).
  { repeat constructor; cbn; intuition discriminate. }
  assert (R : limit scenario_trackers QUERY <= 2000) by (cbn; lia).
  assert (E : scenario_try_consume no_gc_functions 1 INSTANCE 600 zero_counters
              = Some (OK, scenario_after_600)) by reflexivity.
  split.
  { split; [exact (no_gc_keeps_consumption scenario_trackers)|].
    split; [exact D|]. split; [reflexivity|]. split; [exact R|].
    split; [lia|exact E]. }
  exact (proj1 (update_limit_raise_keeps_success
                  scenario_trackers 0 (2 ^ 40)
                  (try_gc_memory scenario_trackers no_gc_functions)
                  1 INSTANCE 600 zero_counters scenario_after_600 QUERY 2000
                  (no_gc_keeps_consumption scenario_trackers) D eq_refl R
                  ltac:(lia) E 0%nat)).
Defined.

(** ** try_consume undone by a negative request *)

(** X11.  A successful [try_consume(bytes)], [bytes > 0], is undone by
    [try_consume(-bytes)]: the second call takes the release branch, answers
    OK whatever the limits, the process memory and the GC protocol, and
    every consumption counter is back at its value before the first call
    (for a GC protocol that leaves the consumption counters alone, and
    counters that hold [int64_t] values). *)
Theorem try_consume_undone_by_negative :
  forall trackers vm_rss mem_limit try_gc_memory fuel fuel' self bytes m m',
    (forall t b x p,
        _consumption (snd (try_gc_memory t b x)) p = _consumption x p) ->
    counters_ok m ->
    0 < bytes ->
    in_range bytes ->
    try_consume trackers vm_rss mem_limit try_gc_memory fuel self bytes m
    = Some (OK, m') ->
    try_consume trackers vm_rss mem_limit try_gc_memory fuel' self (- bytes) m'
    = Some (OK, release trackers self bytes m') /\
    forall p, current_value p (release trackers self bytes m')
              = current_value p m.
Proof.
  intros trackers vm_rss mem_limit gc fuel fuel' self bytes m m' K W Hb R E.
  assert (N : neg64 (- bytes) = bytes).
  { unfold neg64. rewrite Z.opp_involutive. now apply wrap64_id. }
  split.
  - unfold try_consume.
    assert (Hle : (- bytes <=? 0) = true) by (apply Z.leb_le; lia).
    now rewrite Hle, N.
  - intros p. unfold try_consume in E. positive_request bytes.
    destruct (check_sys_mem_info vm_rss mem_limit bytes); [|discriminate].
    unfold release, current_value.
    assert (NZ : neg64 bytes <> 0).
    { intros Z0. apply (neg64_zero bytes R) in Z0. lia. }
    rewrite (consume_consumption trackers self _ m' p NZ).
    rewrite (walk_success_consumption trackers gc K _ _ _ _ _ _ E).
    apply iter_add64_cancel, W.
Qed.

(** X11 at a concrete input: [try_consume(600)] then [try_consume(-600)] on
    the instance tracker. *)
Lemma try_consume_undone_by_negative_witness :
  ((forall t b x p,
       _consumption
         (snd (try_gc_memory scenario_trackers no_gc_functions t b x)) p
       = _consumption x p) /\
   counters_ok zero_counters /\
   0 < 600 /\
   in_range 600 /\
   scenario_try_consume no_gc_functions 1 INSTANCE 600 zero_counters
   = Some (OK, scenario_after_600)) /\
  map (fun p => current_value p
                  (release scenario_trackers INSTANCE 600 scenario_after_600))
      [ROOT; QUERY; INSTANCE]
  = [0; 0; 0].
Proof.
  assert (W : counters_ok zero_counters).
  { intros p. unfold in_range, min_value, max_value. cbn. lia. }
  assert (R : in_range 600) by (unfold in_range, min_value, max_value; lia).
  assert (E : scenario_try_consume no_gc_functions 1 INSTANCE 600 zero_counters
              = Some (OK, scenario_after_600)) by reflexivity.
  split.
  { split; [exact (no_gc_keeps_consumption scenario_trackers)|].
    split; [exact W|]. split; [lia|]. split; [exact R|exact E]. }
  cbn [map].
  rewrite !(proj2 (try_consume_undone_by_negative
                     scenario_trackers 0 (2 ^ 40)
                     (try_gc_memory scenario_trackers no_gc_functions)
                     1 0 INSTANCE 600 zero_counters scenario_after_600
                     (no_gc_keeps_consumption scenario_trackers) W
                     ltac:(lia) R E)).
  reflexivity.
Defined.

(** ** try_consume and check_limit agree *)

(** X12.  What [try_consume] accepts, [check_limit] accepts.  Let the chain
    of a tracker hold no tracker twice, let every tracker of its
    [_limited_ancestors] be one of the chain with a limit and another label
    than "Process" (the comment of the field), and let the GC protocol leave
    the consumption counters alone.  If [try_consume(bytes)], [bytes > 0],
    answers OK from some counters, then [check_limit(bytes)] from the same
    counters answers OK at the first iteration of every loop, asks for no
    GC and changes nothing. *)
Theorem try_consume_ok_then_check_limit :
  forall trackers vm_rss mem_limit try_gc_memory fuel self bytes m m',
    (forall t b x p,
        _consumption (snd (try_gc_memory t b x)) p = _consumption x p) ->
    NoDup (_all_ancestors (trackers self)) ->
    (forall t, In t (_limited_ancestors (trackers self)) ->
               In t (_all_ancestors (trackers self)) /\
               0 <= limit trackers t /\
               label trackers t <> "Process"%string) ->
    0 < bytes ->
    try_consume trackers vm_rss mem_limit try_gc_memory fuel self bytes m
    = Some (OK, m') ->
    forall fuel',
      check_limit trackers vm_rss mem_limit try_gc_memory (S fuel') self bytes m
      = Some (OK, m).
Proof.
  intros trackers vm_rss mem_limit gc fuel self bytes m m' K D Cov Hb E fuel'.
  unfold try_consume in E. unfold check_limit.
  positive_request bytes.
  destruct (check_sys_mem_info vm_rss mem_limit bytes); [|discriminate].
  apply check_limit_walk_room; [apply le_n|].
  intros t I. destruct (Cov t I) as (Ic & L & NP).
  destruct (In_nth _ _ self Ic) as (i & Hi & Ht).
  pose proof (walk_success_below trackers gc K fuel self bytes _ m m'
                D (le_n _) E i Hi) as B.
  cbn zeta in B. rewrite Ht in B. now apply B.
Qed.

(** X12 at a concrete input: [try_consume(600)] and [check_limit(600)] on
    the instance tracker, from all counters at zero. *)
Lemma try_consume_ok_then_check_limit_witness :
  ((forall t b x p,
       _consumption
         (snd (try_gc_memory scenario_trackers no_gc_functions t b x)) p
       = _consumption x p) /\
   NoDup (_all_ancestors (scenario_trackers INSTANCE)) /\
   (forall t, In t (_limited_ancestors (scenario_trackers INSTANCE)) ->
              In t (_all_ancestors (scenario_trackers INSTANCE)) /\
              0 <= limit scenario_trackers t /\
              label scenario_trackers t <> "Process"%string) /\
   0 < 600 /\
   scenario_try_consume no_gc_functions 1 INSTANCE 600 zero_counters
   = Some (OK, scenario_after_600)) /\
  check_limit scenario_trackers 0 (2 ^ 40)
              (try_gc_memory scenario_trackers no_gc_functions)
              1 INSTANCE 600 zero_counters
  = Some (OK, zero_counters).
Proof.
  assert (D : NoDup (_all_ancestors (scenario_trackers INSTANCE))).
  { repeat constructor; cbn; intuition discriminate. }
  assert (Cov : forall t,
             In t (_limited_ancestors (scenario_trackers INSTANCE)) ->
             In t (_all_ancestors (scenario_trackers INSTANCE)) /\
             0 <= limit scenario_trackers t /\
             label scenario_trackers t <> "Process"%string).
  { intros t [<-|[]]. split; [right; now left|].
    split; [cbn; lia|discriminate]. }
  assert (E : scenario_try_consume no_gc_functions 1 INSTANCE 600 zero_counters
              = Some (OK, scenario_after_600)) by reflexivity.
  split.
  { split; [exact (no_gc_keeps_consumption scenario_trackers)|].
    split; [exact D|]. split; [exact Cov|]. split; [lia|exact E]. }
  exact (try_consume_ok_then_check_limit
           scenario_trackers 0 (2 ^ 40)
           (try_gc_memory scenario_trackers no_gc_functions)
           1 INSTANCE 600 zero_counters scenario_after_600
           (no_gc_keeps_consumption scenario_trackers) D Cov
           ltac:(lia) E 0%nat).
Defined.

(** ** Requests when a limit is already exceeded *)

Lemma any_limit_exceeded_loop_true trackers limited m :
  any_limit_exceeded_loop trackers limited m = true ->
  exists t, In t limited /\ limit_exceeded trackers t m = true.
Proof.
  induction limited as [|t l IH]; cbn [any_limit_exceeded_loop];
    [discriminate|].
  destruct (limit_exceeded trackers t m) eqn:E.
  - intros _. exists t. split; [now left|exact E].
  - intros H. destruct (IH H) as (x & I & Hx). exists x.
    split; [now right|exact Hx].
Qed.

(** A tracker over its limit has no room for a positive request. *)
Lemma limit_exceeded_no_room trackers t bytes m :
  counters_ok m ->
  0 < bytes ->
  current_value t m + bytes <= max_value ->
  limit_exceeded trackers t m = true ->
  0 <= limit trackers t /\
  limit trackers t < add64 (current_value t m) bytes.
Proof.
  intros W Hb Fit X. unfold limit_exceeded in X.
  apply andb_true_iff in X as [L C].
  rewrite Z.geb_leb in L. apply Z.leb_le in L. apply Z.ltb_lt in C.
  split; [exact L|].
  unfold add64. rewrite wrap64_id; [lia|].
  pose proof (proj1 (W t)) as R. unfold current_value, in_range in *. lia.
Qed.

(** X13.  Nothing is granted over an exceeded limit.  When
    [any_limit_exceeded] holds, the GC protocol leaves the consumption
    counters alone and the request is positive (and does not overflow a
    counter), [check_limit(bytes)] never answers OK; nor does
    [try_consume(bytes)], when the chain holds no tracker twice and every
    tracker of [_limited_ancestors] is one of the chain that is not
    labelled "Process". *)
Theorem exceeded_limit_refuses :
  forall trackers vm_rss mem_limit try_gc_memory fuel self bytes m,
    (forall t b x p,
        _consumption (snd (try_gc_memory t b x)) p = _consumption x p) ->
    counters_ok m ->
    0 < bytes ->
    (forall t, In t (_limited_ancestors (trackers self)) ->
               current_value t m + bytes <= max_value) ->
    any_limit_exceeded trackers self m = true ->
    (forall m',
        check_limit trackers vm_rss mem_limit try_gc_memory fuel self bytes m
        <> Some (OK, m')) /\
    (NoDup (_all_ancestors (trackers self)) ->
     (forall t, In t (_limited_ancestors (trackers self)) ->
                In t (_all_ancestors (trackers self)) /\
                label trackers t <> "Process"%string) ->
     forall m',
       try_consume trackers vm_rss mem_limit try_gc_memory fuel self bytes m
       <> Some (OK, m')).
Proof.
  intros trackers vm_rss mem_limit gc fuel self bytes m K W Hb Fit A.
  destruct (any_limit_exceeded_loop_true _ _ _ A) as (t & I & X).
  destruct (limit_exceeded_no_room trackers t bytes m W Hb (Fit t I) X)
    as [L C].
  split.
  - intros m' E. unfold check_limit in E. positive_request bytes.
    destruct (check_sys_mem_info vm_rss mem_limit bytes); [|discriminate].
    destruct (In_nth _ _ self I) as (i & Hi & Ht).
    pose proof (check_limit_walk_ok_room trackers gc K fuel self bytes _ m m'
                  E i Hi) as B.
    cbn zeta in B. rewrite Ht in B. lia.
  - intros D Cov m' E. unfold try_consume in E. positive_request bytes.
    destruct (check_sys_mem_info vm_rss mem_limit bytes); [|discriminate].
    destruct (Cov t I) as [Ic NP].
    destruct (In_nth _ _ self Ic) as (i & Hi & Ht).
    pose proof (walk_success_below trackers gc K fuel self bytes _ m m'
                  D (le_n _) E i Hi) as B.
    cbn zeta in B. rewrite Ht in B. specialize (B L NP). lia.
Qed.

(** X13 at a concrete input: [consume(1500)] on the instance tracker, which
    asks no limit, puts the query tracker (limit 1000) over its limit;
    [check_limit(100)] then refuses. *)
Lemma exceeded_limit_refuses_witness :
  ((forall t b x p,
       _consumption
         (snd (try_gc_memory scenario_trackers no_gc_functions t b x)) p
       = _consumption x p) /\
   counters_ok (consume scenario_trackers INSTANCE 1500 zero_counters) /\
   0 < 100 /\
   (forall t, In t (_limited_ancestors (scenario_trackers INSTANCE)) ->
              current_value t
                (consume scenario_trackers INSTANCE 1500 zero_counters) + 100
              <= max_value) /\
   any_limit_exceeded scenario_trackers INSTANCE
     (consume scenario_trackers INSTANCE 1500 zero_counters) = true) /\
  forall m',
    check_limit scenario_trackers 0 (2 ^ 40)
                (try_gc_memory scenario_trackers no_gc_functions)
                1 INSTANCE 100
                (consume scenario_trackers INSTANCE 1500 zero_counters)
    <> Some (OK, m').
Proof.
  assert (W : counters_ok (consume scenario_trackers INSTANCE 1500
                                   zero_counters)).
  { apply add_each_counters_ok. intros p.
    unfold in_range, min_value, max_value. cbn. lia. }
  assert (Fit : forall t,
             In t (_limited_ancestors (scenario_trackers INSTANCE)) ->
             current_value t
               (consume scenario_trackers INSTANCE 1500 zero_counters) + 100
             <= max_value).
  { intros t [<-|[]]. vm_compute. discriminate. }
  assert (A : any_limit_exceeded scenario_trackers INSTANCE
                (consume scenario_trackers INSTANCE 1500 zero_counters) = true)
    by reflexivity.
  split.
  { split; [exact (no_gc_keeps_consumption scenario_trackers)|].
    split; [exact W|]. split; [lia|]. split; [exact Fit|exact A]. }
  exact (proj1 (exceeded_limit_refuses
                  scenario_trackers 0 (2 ^ 40)
                  (try_gc_memory scenario_trackers no_gc_functions)
                  1 INSTANCE 100
                  (consume scenario_trackers INSTANCE 1500 zero_counters)
                  (no_gc_keeps_consumption scenario_trackers) W
                  ltac:(lia) Fit A)).
Defined.
